(** * Point and click: links between a rendered score and its source text

    A shallow embedding of [frescobaldi_app/musicview/pointandclick.py]:
    the [textedit://] URL pattern, the per-document link table ([Links]),
    the binding of a link table to a text document ([BoundLinks]) and the
    query [BoundLinks.indices]. *)

From Stdlib Require Import ZArith List String Ascii Lia Bool.
From stdpp Require Import base option list gmap strings sorting.
From Equations Require Import Equations.
Import ListNotations.

Local Open Scope Z_scope.
Local Open Scope list_scope.

(** ** Python strings as character lists *)

Definition chars (s : string) : list ascii := list_ascii_of_string s.
Definition str (l : list ascii) : string := string_of_list_ascii l.

Definition colon : ascii := ":"%char.
Definition newline : ascii := "010"%char.

(** [\d] of a pattern compiled without [re.UNICODE]: the set [0-9]. *)
Definition isdigit (c : ascii) : bool :=
  let n := N_of_ascii c in ((48 <=? n) && (n <=? 57))%N.

(** [int(s)] on a string of decimal digits. *)
Definition digit_value (c : ascii) : Z := Z.of_N (N_of_ascii c) - 48.

Definition int (s : list ascii) : Z :=
  fold_left (fun acc c => 10 * acc + digit_value c) s 0.

(** ** The pattern [^textedit://(.*?):(\d+):(\d+)(?::\d+)$] *)

Module Re.

(** A greedy [\d+] followed by something that is not a digit takes the whole
    run of digits: giving a digit back leaves a digit in front of the
    continuation ([:] or [$]), which then fails. [span_digits] returns that
    run and the rest of the subject. *)
Fixpoint span_digits (s : list ascii) : list ascii * list ascii :=
  match s with
  | c :: s' =>
      if isdigit c then let '(d, r) := span_digits s' in (c :: d, r)
      else ([], s)
  | [] => ([], [])
  end.

(** [$] without [re.MULTILINE]: the end of the subject, or just before a
    newline that ends the subject. *)
Definition at_dollar (s : list ascii) : bool :=
  match s with
  | [] => true
  | [c] => bool_decide (c = newline)
  | _ => false
  end.

(** [\d+] then a continuation [k] on the rest. *)
Definition digits_then {A} (s : list ascii)
    (k : list ascii -> list ascii -> option A) : option A :=
  match span_digits s with
  | ([], _) => None
  | (d, r) => k d r
  end.

Definition expect_colon {A} (s : list ascii)
    (k : list ascii -> option A) : option A :=
  match s with
  | c :: s' => if bool_decide (c = colon) then k s' else None
  | [] => None
  end.

(** [:(\d+):(\d+)(?::\d+)$] at the current position: groups 2 and 3. *)
Definition match_tail (s : list ascii) : option (list ascii * list ascii) :=
  expect_colon s (fun s1 =>
  digits_then s1 (fun g2 s2 =>
  expect_colon s2 (fun s3 =>
  digits_then s3 (fun g3 s4 =>
  expect_colon s4 (fun s5 =>
  digits_then s5 (fun _ s6 =>
  if at_dollar s6 then Some (g2, g3) else None)))))).

(** [(.*?)] in front of the tail: the lazy star first tries the tail where
    it stands and only then takes one more character, never a newline. *)
Fixpoint match_lazy (s : list ascii)
    : option (list ascii * list ascii * list ascii) :=
  match match_tail s with
  | Some (g2, g3) => Some ([], g2, g3)
  | None =>
      match s with
      | c :: s' =>
          if bool_decide (c = newline) then None
          else match match_lazy s' with
               | Some (g1, g2, g3) => Some (c :: g1, g2, g3)
               | None => None
               end
      | [] => None
      end
  end.

(** The literal prefix [textedit://] anchored at [^]. *)
Fixpoint strip_prefix (p s : list ascii) : option (list ascii) :=
  match p, s with
  | [], _ => Some s
  | a :: p', b :: s' => if bool_decide (a = b) then strip_prefix p' s' else None
  | _ :: _, [] => None
  end.

End Re.

(** The match object: the three groups. *)
Record Match := { group1 : string; group2 : list ascii; group3 : list ascii }.

Definition scheme_prefix : list ascii := chars "textedit://".

Definition textedit_match (url : string) : option Match :=
  match Re.strip_prefix scheme_prefix (chars url) with
  | Some rest =>
      match Re.match_lazy rest with
      | Some (g1, g2, g3) =>
          Some {| group1 := str g1; group2 := g2; group3 := g3 |}
      | None => None
      end
  | None => None
  end.

(** ** The text document (Qt's [QTextDocument], as far as it is used) *)

(** Modelled from the spec: [ly.tokenize] is not among the sources. The
    spec's token exposes its start column, its kind (opener, closer or
    other) and the name of its pair; in the code these are [token.pos],
    the classes [MatchStart] and [MatchEnd], and [token.matchname]. *)
Inductive TokenClass :=
| MatchStart (matchname : string)
| MatchEnd (matchname : string)
| PlainToken.

Record Token := { tok_pos : Z; tok_class : TokenClass }.

(** A block is one line of text, with the tokens kept for it. *)
Record QTextBlock := { block_text : string; block_tokens : list Token }.

Record QTextDocument := {
  doc_url : string;                 (* d.url().toLocalFile() *)
  doc_scratchdir : option string;   (* scratchdir.scratchdir(d).path() *)
  doc_blocks : list QTextBlock
}.

(** A block takes its characters and one separator. *)
Definition block_size (b : QTextBlock) : Z :=
  Z.of_nat (String.length (block_text b)) + 1.

Fixpoint blocks_position (bs : list QTextBlock) (n : nat) : Z :=
  match n, bs with
  | S n', b :: bs' => block_size b + blocks_position bs' n'
  | _, _ => 0
  end.

(** [b.position()] of block number [n]. *)
Definition block_position (doc : QTextDocument) (n : nat) : Z :=
  blocks_position (doc_blocks doc) n.

(** [doc.findBlockByNumber(n)]: [None] is the invalid block. *)
Definition findBlockByNumber (doc : QTextDocument) (n : Z) : option nat :=
  if bool_decide (0 <= n < Z.of_nat (length (doc_blocks doc)))
  then Some (Z.to_nat n) else None.

Fixpoint find_block_from (bs : list QTextBlock) (n : nat) (start pos : Z)
    : option nat :=
  match bs with
  | [] => None
  | b :: bs' =>
      if pos <? start + block_size b then Some n
      else find_block_from bs' (S n) (start + block_size b) pos
  end.

(** The block that holds position [pos]; what [block()] of a cursor at
    [pos] returns. *)
Definition findBlock (doc : QTextDocument) (pos : Z) : option nat :=
  if pos <? 0 then None else find_block_from (doc_blocks doc) 0 0 pos.

(** [position()] of a possibly invalid block. *)
Definition position_of_block (doc : QTextDocument) (b : option nat) : Z :=
  match b with
  | Some n => block_position doc n
  | None => 0
  end.

(** A [QTextCursor]: its anchor and its position. *)
Record QTextCursor := { anchor : Z; position : Z }.

(** A cursor without selection at offset [p]. *)
Definition at_position (p : Z) : QTextCursor := {| anchor := p; position := p |}.

(** The number of positions of the document: its characters and one
    separator for each block. *)
Definition document_length (doc : QTextDocument) : Z :=
  block_position doc (length (doc_blocks doc)).

(** [c = QTextCursor(doc)] followed by [c.setPosition(p)]. The new cursor
    is at 0; Qt's [setPosition] takes an offset inside the document and
    refuses any other, leaving the cursor where it is. *)
Definition setPosition (doc : QTextDocument) (p : Z) : QTextCursor :=
  if bool_decide (0 <= p < document_length doc)
  then at_position p else at_position 0.

Definition hasSelection (c : QTextCursor) : bool :=
  negb (anchor c =? position c).
Definition selectionStart (c : QTextCursor) : Z := Z.min (anchor c) (position c).
Definition selectionEnd (c : QTextCursor) : Z := Z.max (anchor c) (position c).

Definition cursor_block (doc : QTextDocument) (c : QTextCursor) : option nat :=
  findBlock doc (position c).

(** ** The rendered document (Poppler), as far as it is used *)

Record QRectF := { rect_x : Z; rect_y : Z; rect_w : Z; rect_h : Z }.

(** [(num, link.linkArea())] *)
Definition Destination : Type := Z * QRectF.

Inductive Link :=
| LinkBrowse (url : string) (linkArea : QRectF)
| LinkOther (linkArea : QRectF).

Definition Page : Type := list Link.
Definition PopplerDocument : Type := list Page.

(** ** Exceptions *)

Inductive Exception := KeyError (key : Z * Z).

Inductive result (A : Type) :=
| Return (a : A)
| Raise (e : Exception).
Arguments Return {A} a.
Arguments Raise {A} e.

(** ** BoundLinks *)

Definition Key : Type := Z * Z.

(** The order of [sorted(links.items())]: tuples compare lexicographically,
    and the keys of a dict are distinct, so the key decides. *)
Definition key_le (a b : Key) : Prop :=
  a.1 < b.1 \/ (a.1 = b.1 /\ a.2 <= b.2).

Definition item_le {A} (x y : Key * A) : Prop := key_le x.1 y.1.

#[global] Instance key_le_dec : RelDecision key_le.
Proof. intros a b. unfold key_le. apply _. Defined.

#[global] Instance item_le_dec {A} : RelDecision (@item_le A).
Proof. intros a b. unfold item_le. apply _. Defined.

Definition sorted_items (links : gmap Key (list Destination))
    : list (Key * list Destination) :=
  merge_sort item_le (map_to_list links).

Record BoundLinks := {
  _document : QTextDocument;
  _cursor_dict : gmap Key QTextCursor;
  _cursors : list QTextCursor;
  _destinations : list (list Destination)
}.

(** One turn of the loop of [BoundLinks.__init__]. *)
Definition bind_item (doc : QTextDocument) (self : BoundLinks)
    (item : Key * list Destination) : BoundLinks :=
  let '((line, column), dest) := item in
  match findBlockByNumber doc (line - 1) with
  | Some b =>
      let c := setPosition doc (block_position doc b + column) in
      {| _document := _document self;
         _cursor_dict := <[(line, column) := c]> (_cursor_dict self);
         _cursors := _cursors self ++ [c];
         _destinations := _destinations self ++ [dest] |}
  | None => self
  end.

Definition BoundLinks_init (doc : QTextDocument)
    (links : gmap Key (list Destination)) : BoundLinks :=
  fold_left (bind_item doc) (sorted_items links)
    {| _document := doc; _cursor_dict := ∅; _cursors := []; _destinations := [] |}.

(** [BoundLinks.cursor]: a dict subscript, [KeyError] when the key is absent. *)
Definition BoundLinks_cursor (self : BoundLinks) (line column : Z)
    : result QTextCursor :=
  match _cursor_dict self !! (line, column) with
  | Some c => Return c
  | None => Raise (KeyError (line, column))
  end.

(** *** The binary search [findlink] of [BoundLinks.indices] *)

Definition cursor_at (cursors : list QTextCursor) (i : nat) : QTextCursor :=
  nth i cursors (at_position 0).

(** The [while lo < hi] loop. *)
Equations? findlink_loop (cursors : list QTextCursor) (pos : Z) (lo hi : nat)
    : nat by wf (hi - lo)%nat lt :=
  findlink_loop cursors pos lo hi with lt_dec lo hi => {
    | right _ => lo
    | left _ with Z_lt_dec pos (position (cursor_at cursors ((lo + hi) / 2))) => {
        | left _ => findlink_loop cursors pos lo ((lo + hi) / 2)
        | right _ => findlink_loop cursors pos ((lo + hi) / 2 + 1) hi } }.
Proof.
  all: change (fst (Nat.divmod (lo + hi) 1 0 1)) with ((lo + hi) / 2)%nat;
       assert ((lo + hi) / 2 < hi)%nat
         by (apply Nat.Div0.div_lt_upper_bound; lia);
       assert (lo <= (lo + hi) / 2)%nat
         by (apply Nat.div_le_lower_bound; lia);
       lia.
Qed.

Definition findlink (cursors : list QTextCursor) (pos : Z) : Z :=
  Z.of_nat (findlink_loop cursors pos 0 (length cursors)) - 1.

(** *** The token iterator *)

(** Modelled from the spec: [tokeniter.TokenIterator] is not among the
    sources. The spec gives the buffer a token-stream accessor that yields
    the tokens of a line in a direction, and has the second scan go on
    backward across line boundaries. [tokens doc b] are the tokens of block
    [b]; an iterator made at the end of block [b] yields, going backward
    without changing block, the tokens of [b] from the last to the first;
    going on with a change of block it yields what is left of the block and
    then the blocks before it, each from its last token to its first, and
    each token together with the block it is in ([tokens.block]). *)
Definition tokens (doc : QTextDocument) (b : nat) : list Token :=
  match doc_blocks doc !! b with
  | Some blk => block_tokens blk
  | None => []
  end.

Definition backward_line (doc : QTextDocument) (b : nat) : list Token :=
  rev (tokens doc b).

Fixpoint backward_blocks (doc : QTextDocument) (b : nat) : list (nat * Token) :=
  match b with
  | O => []
  | S b' => map (pair b') (backward_line doc b') ++ backward_blocks doc b'
  end.

(** *** The two scans of [BoundLinks.indices] *)

Definition slur_like (name : string) : bool :=
  bool_decide (name = "slur"%string) || bool_decide (name = "phrasingslur"%string)
  || bool_decide (name = "beam"%string).

(** The inner loop [for token in tokens.backward()]: [stream] is what the
    iterator still yields. [Some (b, token)] is [found = True] with
    [tokens.block = b] and the opening [token]. *)
Fixpoint find_start (name : string) (nest : Z) (stream : list (nat * Token))
    : option (nat * Token) :=
  match stream with
  | [] => None
  | (b, token) :: stream' =>
      match tok_class token with
      | MatchStart n =>
          if bool_decide (n = name) then
            if nest - 1 =? 0 then Some (b, token)
            else find_start name (nest - 1) stream'
          else find_start name nest stream'
      | MatchEnd n =>
          if bool_decide (n = name) then find_start name (nest + 1) stream'
          else find_start name nest stream'
      | PlainToken => find_start name nest stream'
      end
  end.

(** The outer loop [for token in tokens.backward(False)] over the tokens
    [line] of block [b] that are still to come; [before] is what the
    iterator yields once block [b] is used up. *)
Fixpoint find_end (prevcol col : Z) (b : nat) (line : list Token)
    (before : list (nat * Token)) : option (nat * Token) :=
  match line with
  | [] => None
  | token :: line' =>
      if tok_pos token <=? prevcol then None
      else if tok_pos token <=? col then
        match tok_class token with
        | MatchEnd name =>
            if slur_like name
            then find_start name 1 (map (pair b) line' ++ before)
            else find_end prevcol col b line' before
        | _ => find_end prevcol col b line' before
        end
      else find_end prevcol col b line' before
  end.

(** The scan from a cursor: the iterator is made at the end of the
    cursor's block. *)
Definition scan (doc : QTextDocument) (prevcol col : Z) (blk : option nat)
    : option (nat * Token) :=
  match blk with
  | Some b => find_end prevcol col b (backward_line doc b) (backward_blocks doc b)
  | None => None
  end.

(** *** [BoundLinks.indices] *)

(** What [indices] returns: a slice, [False] or [None]. In the spec's
    words: [Match], [Clear], [Indeterminate]. *)
Inductive Indices :=
| Slice (start stop : Z)
| ReturnFalse
| ReturnNone.

Definition indices_selection (cursors : list QTextCursor) (cursor : QTextCursor)
    : Indices :=
  let end_ := findlink cursors (selectionEnd cursor - 1) in
  if 0 <=? end_ then
    let start := findlink cursors (selectionStart cursor) in
    let start :=
      if (start <? 0)
         || (position (cursor_at cursors (Z.to_nat start)) <? selectionStart cursor)
      then start + 1 else start in
    if start <=? end_ then Slice start (end_ + 1) else ReturnFalse
  else ReturnFalse.

Definition indices_point (doc : QTextDocument) (cursors : list QTextCursor)
    (cursor : QTextCursor) : Indices :=
  let index := findlink cursors (position cursor) in
  if index <? 0 then ReturnNone
  else
    let cur2 := cursor_at cursors (Z.to_nat index) in
    if position cur2 <? position cursor then
      let prevcol :=
        if bool_decide (cursor_block doc cur2 = cursor_block doc cursor)
        then position cur2 - position_of_block doc (cursor_block doc cur2)
        else -1 in
      let col := position cursor - position_of_block doc (cursor_block doc cursor) in
      match scan doc prevcol col (cursor_block doc cursor) with
      | Some (tokens_block, token) =>
          let index := findlink cursors (block_position doc tokens_block + tok_pos token) in
          if (index <? 0)
             || negb (bool_decide
                        (cursor_block doc (cursor_at cursors (Z.to_nat index))
                         = Some tokens_block))
          then ReturnNone
          else Slice index (index + 1)
      | None =>
          if negb (bool_decide (cursor_block doc cur2 = cursor_block doc cursor))
          then ReturnFalse
          else Slice index (index + 1)
      end
    else Slice index (index + 1).

Definition indices (doc : QTextDocument) (cursors : list QTextCursor)
    (cursor : QTextCursor) : Indices :=
  if hasSelection cursor then indices_selection cursors cursor
  else indices_point doc cursors cursor.

Definition BoundLinks_indices (self : BoundLinks) (cursor : QTextCursor) : Indices :=
  indices (_document self) (_cursors self) cursor.

(** ** Links *)

Record Links := {
  _links : gmap string (gmap Key (list Destination));
  _docs : gmap string BoundLinks
}.

Definition result_map {A B} (f : A -> B) (r : result A) : result B :=
  match r with
  | Return a => Return (f a)
  | Raise e => Raise e
  end.

Section LinksModel.

(** [QUrl.fromPercentEncoding], Qt's decoding of the path of the URL. *)
Variable fromPercentEncoding : string -> string.

Definition readfilename (m : Match) : string := fromPercentEncoding (group1 m).

Definition readurl (m : Match) : string * Z * Z :=
  (readfilename m, int (group2 m), int (group3 m)).

(** The body of the loop over [page.links()]: the two [setdefault]s and
    the [append]. *)
Definition add_link (num : Z) (links : gmap string (gmap Key (list Destination)))
    (link : Link) : gmap string (gmap Key (list Destination)) :=
  match link with
  | LinkBrowse url area =>
      match textedit_match url with
      | Some m =>
          let '(filename, line, col) := readurl m in
          let l := default ∅ (links !! filename) in
          let dests := default [] (l !! (line, col)) in
          <[filename := <[(line, col) := dests ++ [(num, area)]]> l]> links
      | None => links
      end
  | LinkOther _ => links
  end.

(** [for num in range(document.numPages())], from page [num] on. *)
Fixpoint scan_pages (links : gmap string (gmap Key (list Destination)))
    (num : Z) (pages : list Page) : gmap string (gmap Key (list Destination)) :=
  match pages with
  | [] => links
  | page :: pages' =>
      scan_pages (fold_left (add_link num) page links) (num + 1) pages'
  end.

(** [Links.bind]. Both callers pass a [filename] that is a key of
    [_links]; the subscript [self._links[filename]] finds it. *)
Definition bind (self : Links) (filename : string) (doc : QTextDocument) : Links :=
  match _links self !! filename with
  | Some l =>
      {| _links := _links self;
         _docs := <[filename := BoundLinks_init doc l]> (_docs self) |}
  | None => self
  end.

Definition names_document (filename : string) (d : QTextDocument) : bool :=
  bool_decide (doc_scratchdir d = Some filename)
  || bool_decide (doc_url d = filename).

(** [for d in app.documents] for one [filename]. *)
Definition bind_documents (documents : list QTextDocument) (self : Links)
    (filename : string) : Links :=
  fold_left (fun s d => if names_document filename d then bind s filename d else s)
    documents self.

(** [Links.__init__] on the pages of the rendered document, with
    [app.documents] the text documents open at that time. *)
Definition Links_init (document : PopplerDocument)
    (documents : list QTextDocument) : Links :=
  let links := scan_pages ∅ 0 document in
  fold_left (bind_documents documents) (map_to_list links).*1
    {| _links := links; _docs := ∅ |}.

Definition slotDocumentLoaded (self : Links) (doc : QTextDocument) : Links :=
  let filename := doc_url doc in
  if bool_decide (is_Some (_links self !! filename))
  then bind self filename doc else self.

(** Modelled from the spec: [app.openUrl] is not among the sources. The
    spec has the request to open a path answered by the host, which may
    trigger the buffer-opened notification synchronously: [host filename]
    is the document loaded during the call, if one is, and the
    notification is [slotDocumentLoaded]. *)
Definition openUrl (host : string -> option QTextDocument) (self : Links)
    (filename : string) : Links :=
  match host filename with
  | Some doc => slotDocumentLoaded self doc
  | None => self
  end.

(** [Links.cursor], on the [url()] of the link. Python's [None] is [None]. *)
Definition Links_cursor (host : string -> option QTextDocument) (self : Links)
    (url : string) (load : bool) : Links * result (option QTextCursor) :=
  match textedit_match url with
  | Some m =>
      let '(filename, line, col) := readurl m in
      match _docs self !! filename with
      | Some bound => (self, result_map Some (BoundLinks_cursor bound line col))
      | None =>
          if load then
            let self' := openUrl host self filename in
            match _docs self' !! filename with
            | Some bound => (self', result_map Some (BoundLinks_cursor bound line col))
            | None => (self', Return None)
            end
          else (self, Return None)
      end
  | None => (self, Return None)
  end.

End LinksModel.

(** [links[filename][(line, col)]], the empty list when there is none. *)
Definition table_lookup (links : gmap string (gmap Key (list Destination)))
    (filename : string) (key : Key) : list Destination :=
  default [] (default ∅ (links !! filename) !! key).

Definition Links_lookup (self : Links) (filename : string) (key : Key)
    : list Destination :=
  table_lookup (_links self) filename key.

(** ** A small example *)

Definition rect0 : QRectF := {| rect_x := 0; rect_y := 0; rect_w := 10; rect_h := 10 |}.
Definition rect1 : QRectF := {| rect_x := 5; rect_y := 7; rect_w := 10; rect_h := 10 |}.

Definition plain_block (s : string) : QTextBlock :=
  {| block_text := s; block_tokens := [] |}.

Definition doc_a : QTextDocument :=
  {| doc_url := "/a.ly"; doc_scratchdir := None;
     doc_blocks := [plain_block "0123456789012345678"; plain_block "abcdefgh"] |}.

Definition pdf_a : PopplerDocument :=
  [[LinkBrowse "textedit:///a.ly:2:4:5" rect0; LinkOther rect1]].

(** ** Notions used to state the properties *)

(** The invariant of §3 of the spec: the anchors are strictly increasing
    in buffer position. *)
Definition strictly_increasing (cursors : list QTextCursor) : Prop :=
  Sorted Z.lt (position <$> cursors).

(** Line [line] (counted from 1) exists in the document. *)
Definition line_exists (doc : QTextDocument) (line : Z) : Prop :=
  1 <= line <= Z.of_nat (length (doc_blocks doc)).

#[global] Instance line_exists_dec doc line : Decision (line_exists doc line).
Proof. unfold line_exists. apply _. Defined.

Definition item_exists {A} (doc : QTextDocument) (item : Key * A) : Prop :=
  line_exists doc item.1.1.

#[global] Instance item_exists_dec {A} doc (item : Key * A) :
  Decision (item_exists doc item).
Proof. unfold item_exists. apply _. Defined.

(** The offset of a key: the start of its line plus its column. *)
Definition key_offset (doc : QTextDocument) (key : Key) : Z :=
  block_position doc (Z.to_nat (key.1 - 1)) + key.2.

(** The cursor made for a key: set to the offset of the key. *)
Definition cursor_for (doc : QTextDocument) (key : Key) : QTextCursor :=
  setPosition doc (key_offset doc key).

(** The strict order of the keys. *)
Definition key_lt (a b : Key) : Prop :=
  a.1 < b.1 \/ (a.1 = b.1 /\ a.2 < b.2).


(** The number of characters of line [line] (counted from 1). *)
Definition line_length (doc : QTextDocument) (line : Z) : Z :=
  match doc_blocks doc !! Z.to_nat (line - 1) with
  | Some b => Z.of_nat (String.length (block_text b))
  | None => 0
  end.

(** Every key whose line exists has its column inside that line (the
    end of the line included). *)
Definition columns_in_lines (doc : QTextDocument)
    (links : gmap Key (list Destination)) : Prop :=
  map_Forall (fun (key : Key) (_ : list Destination) =>
                line_exists doc key.1 -> 0 <= key.2 <= line_length doc key.1)
             links.

#[global] Instance columns_in_lines_dec doc links :
  Decision (columns_in_lines doc links).
Proof. unfold columns_in_lines. apply _. Defined.

(** A two-line document and a link table made before line 1 was cut
    short: its key [(1, 3)] points behind the end of line 1. *)
Definition doc_short : QTextDocument :=
  {| doc_url := "/a.ly"; doc_scratchdir := None;
     doc_blocks := [plain_block "ab"; plain_block "cd"] |}.

Definition links_stale : gmap Key (list Destination) :=
  list_to_map [((1, 3), [(0, rect0)]); ((2, 0), [(0, rect1)])].


(** A table whose key [(1, 5)] lands behind the key [(2, 0)], both inside
    the document [doc_short]. *)
Definition links_crossed : gmap Key (list Destination) :=
  list_to_map [((1, 5), [(0, rect0)]); ((2, 0), [(0, rect1)])].

Definition links_a : gmap Key (list Destination) :=
  list_to_map [((2, 4), [(0, rect0)]); ((1, 0), [(0, rect1)]); ((7, 1), [(1, rect1)])].

(** *** The selection query in the spec's words *)

(** The smallest index, counted from [i], of a cursor that satisfies [P]. *)
Fixpoint spec_smallest_index (P : QTextCursor -> bool)
    (cursors : list QTextCursor) (i : nat) : option nat :=
  match cursors with
  | [] => None
  | c :: cs => if P c then Some i else spec_smallest_index P cs (S i)
  end.

(** The largest index, counted from [i], of a cursor that satisfies [P]. *)
Fixpoint spec_largest_index (P : QTextCursor -> bool)
    (cursors : list QTextCursor) (i : nat) : option nat :=
  match cursors with
  | [] => None
  | c :: cs =>
      match spec_largest_index P cs (S i) with
      | Some j => Some j
      | None => if P c then Some i else None
      end
  end.

(** §4.4, selection case: [endIdx] is the largest index with position
    [< end]; without one the result is Clear; [startIdx] is the smallest
    index with position [>= start]; the result is
    [Match([startIdx, endIdx+1))] if [startIdx <= endIdx], else Clear. *)
Definition spec_selection (cursors : list QTextCursor) (start end_ : Z) : Indices :=
  match spec_largest_index (fun c => position c <? end_) cursors 0 with
  | None => ReturnFalse
  | Some endIdx =>
      match spec_smallest_index (fun c => start <=? position c) cursors 0 with
      | Some startIdx =>
          if (startIdx <=? endIdx)%nat
          then Slice (Z.of_nat startIdx) (Z.of_nat endIdx + 1)
          else ReturnFalse
      | None => ReturnFalse
      end
  end.

(** A document of two lines of nineteen characters, forty positions. *)
Definition doc_ex : QTextDocument :=
  {| doc_url := "/e.ly"; doc_scratchdir := None;
     doc_blocks := [plain_block "0123456789012345678";
                    plain_block "0123456789012345678"] |}.

Definition cursors_ex : list QTextCursor :=
  at_position <$> [2; 5; 9; 14; 20; 27; 31].

(** *** A line with a slur *)

Definition tok (pos : Z) (cls : TokenClass) : Token :=
  {| tok_pos := pos; tok_class := cls |}.

(** The line [c( d) e]. *)
Definition slur_line : QTextBlock :=
  {| block_text := "c( d) e";
     block_tokens := [tok 0 PlainToken; tok 1 (MatchStart "slur");
                      tok 3 PlainToken; tok 4 (MatchEnd "slur");
                      tok 6 PlainToken] |}.

Definition doc_slur : QTextDocument :=
  {| doc_url := "/s.ly"; doc_scratchdir := None;
     doc_blocks := [plain_block "\relative c' {"; slur_line; plain_block "}"] |}.

(** The start of [slur_line] in [doc_slur] is 15. Cursors at [c], [(]
    and [d]. *)
Definition cursors_slur : list QTextCursor := at_position <$> [15; 16; 18].

(** The line [d) e] alone: a closing slur without its opening one. *)
Definition doc_unbalanced : QTextDocument :=
  {| doc_url := "/u.ly"; doc_scratchdir := None;
     doc_blocks := [ {| block_text := "d) e";
                        block_tokens := [tok 0 PlainToken; tok 1 (MatchEnd "slur");
                                         tok 3 PlainToken] |} ] |}.

(** *** The shape of the URLs that match *)

(** One or more digits. *)
Definition all_digits (s : list ascii) : Prop :=
  s <> [] /\ Forall (fun c => isdigit c = true) s.

(** [:line:column:tail], then the end or one newline. *)
Definition tail_shape (s line column : list ascii) : Prop :=
  exists tail nl,
    s = colon :: line ++ colon :: column ++ colon :: tail ++ nl
    /\ all_digits line /\ all_digits column /\ all_digits tail
    /\ (nl = [] \/ nl = [newline]).

(** Where a run of digits ends: at the end of the subject or in front of
    a character that is no digit. *)
Definition no_digit_ahead (s : list ascii) : Prop :=
  match s with
  | [] => True
  | c :: _ => isdigit c = false
  end.

(** The number of colons of a string. *)
Definition colons (s : list ascii) : nat :=
  length (filter (fun c => c = colon) s).

(** [textedit://path:line:column:tail], with no newline in [path]. *)
Definition textedit_url (url : string) (path line column : list ascii) : Prop :=
  exists rest,
    chars url = scheme_prefix ++ path ++ rest
    /\ (newline ∉ path)
    /\ tail_shape rest line column.

(** *** The raw link records *)

Section LinksNotions.

Variable fromPercentEncoding : string -> string.

(** The raw link record of a link of page [num]: file, (line, column) and
    destination; [None] for a link that carries no URL of the pattern. *)
Definition link_record (num : Z) (link : Link)
    : option (string * Key * Destination) :=
  match link with
  | LinkBrowse url area =>
      match textedit_match url with
      | Some m =>
          let '(filename, line, col) := readurl fromPercentEncoding m in
          Some (filename, (line, col), (num, area))
      | None => None
      end
  | LinkOther _ => None
  end.

(** The records in encounter order: pages in index order from [num] on,
    the links of a page in the order of the page. *)
Fixpoint raw_records (num : Z) (pages : list Page)
    : list (string * Key * Destination) :=
  match pages with
  | [] => []
  | page :: pages' => omap (link_record num) page ++ raw_records (num + 1) pages'
  end.

(** The destinations among [records] that were recorded for a file and a
    key, in the order of [records]. *)
Definition inserted_for (records : list (string * Key * Destination))
    (filename : string) (key : Key) : list Destination :=
  (filter (fun r => r.1 = (filename, key)) records).*2.

End LinksNotions.

(** The form of URL that the spec names: [path:line:column] ended by the
    end of the string or by one more group [:digits]. *)
Definition spec_url_form (url : string) (path line column : list ascii) : Prop :=
  exists tail,
    chars url = scheme_prefix ++ path ++ colon :: line ++ colon :: column ++ tail
    /\ all_digits line /\ all_digits column
    /\ (tail = [] \/ exists t, tail = colon :: t /\ all_digits t).

(** A rendered page whose link has line and column but no further group. *)
Definition pdf_no_tail : PopplerDocument :=
  [[LinkBrowse "textedit:///a.ly:2:4" rect0]].

(** A rendered document made when [/a.ly] still had seven lines. *)
Definition pdf_stale : PopplerDocument :=
  [[LinkBrowse "textedit:///a.ly:2:4:5" rect0];
   [LinkBrowse "textedit:///a.ly:7:1:2" rect1]].

(** The link tables of the two rendered documents, with [doc_a] open. *)
Definition Links_a : Links := Links_init id pdf_a [doc_a].
Definition Links_stale : Links := Links_init id pdf_stale [doc_a].

(** A host that loads [doc_a] when asked for [/a.ly], and nothing else. *)
Definition host_a (filename : string) : option QTextDocument :=
  if bool_decide (filename = "/a.ly"%string) then Some doc_a else None.

(** The table of [pdf_a] for [/a.ly]. *)
Definition links_a_table : gmap Key (list Destination) :=
  list_to_map [((2, 4), [(0, rect0)])].

(** *** The first scan in words *)

(** The name of a closing token that the scan looks for: a slur, a
    phrasing slur or a beam. *)
Definition recognized_closer (t : Token) : option string :=
  match tok_class t with
  | MatchEnd name => if slur_like name then Some name else None
  | _ => None
  end.

(** A token that the first scan passes over: it starts right of the lower
    bound, and it starts right of the caret column or is no recognised
    closing token. *)
Definition passed_over (prevcol col : Z) (t : Token) : Prop :=
  prevcol < tok_pos t /\ (col < tok_pos t \/ recognized_closer t = None).

(** ** Further notions *)

(** *** Nesting in the backward token stream *)

(** A stretch of the backward stream in which the tokens of the pair
    [name] are balanced: it is empty, or a token that neither opens nor
    closes [name] and a balanced stretch, or, read backward, a closing
    token, a balanced stretch, the opening token and a balanced stretch. *)
Inductive balanced (name : string) : list (nat * Token) -> Prop :=
| balanced_nil : balanced name []
| balanced_other bt w :
    tok_class bt.2 <> MatchStart name -> tok_class bt.2 <> MatchEnd name ->
    balanced name w -> balanced name (bt :: w)
| balanced_pair c w1 o w2 :
    tok_class c.2 = MatchEnd name -> balanced name w1 ->
    tok_class o.2 = MatchStart name -> balanced name w2 ->
    balanced name (c :: w1 ++ o :: w2).

(** Two lines with a slur inside a slur that began on the line before:
    [c( d] and [e( f) g)]. *)
Definition doc_nested : QTextDocument :=
  {| doc_url := "/n.ly"; doc_scratchdir := None;
     doc_blocks :=
       [ {| block_text := "c( d";
            block_tokens := [tok 0 PlainToken; tok 1 (MatchStart "slur");
                             tok 3 PlainToken] |};
         {| block_text := "e( f) g)";
            block_tokens := [tok 0 PlainToken; tok 1 (MatchStart "slur");
                             tok 3 PlainToken; tok 4 (MatchEnd "slur");
                             tok 6 PlainToken; tok 7 (MatchEnd "slur")] |} ] |}.

(** *** The bindings of a link table *)

(** The last of [documents] that [filename] names: the one that the loop
    of [Links.__init__] leaves bound. *)
Definition last_named (documents : list QTextDocument) (filename : string)
    : option QTextDocument :=
  last (filter (fun d => names_document filename d = true) documents).

(** Every binding is for a file of the table, and was made from the
    table's entries for that file and the binding's document. *)
Definition docs_consistent (self : Links) : Prop :=
  forall filename bound,
    _docs self !! filename = Some bound ->
    exists l, _links self !! filename = Some l
              /\ bound = BoundLinks_init (_document bound) l.

#[global] Instance TokenClass_eq_dec : EqDecision TokenClass.
Proof. solve_decision. Defined.

#[global] Instance Token_eq_dec : EqDecision Token.
Proof. solve_decision. Defined.

#[global] Instance QTextBlock_eq_dec : EqDecision QTextBlock.
Proof. solve_decision. Defined.

#[global] Instance QTextDocument_eq_dec : EqDecision QTextDocument.
Proof. solve_decision. Defined.

(** [Links.boundLinks]: the first binding, in the order in which the dict
    gives its values, whose document is [doc]; Python's [None] if there is
    none. The document stands for itself in the comparison
    [b._document() == doc]. *)
Definition boundLinks (self : Links) (doc : QTextDocument) : option BoundLinks :=
  snd <$> list_find (fun b => _document b = doc) (map_to_list (_docs self)).*2.

(** [BoundLinks.cursors] and [BoundLinks.destinations]. *)
Definition BoundLinks_cursors (self : BoundLinks) : list QTextCursor :=
  _cursors self.
Definition BoundLinks_destinations (self : BoundLinks) : list (list Destination) :=
  _destinations self.

Section LinksCache.

Variable fromPercentEncoding : string -> string.

(** [links(document)] with the module's [_cache], a dict keyed by the
    rendered document itself: [handle] is that document's identity. A hit
    returns the cached [Links]; a miss builds one, stores and returns it. *)
Definition links (cache : gmap nat Links) (handle : nat)
    (document : PopplerDocument) (documents : list QTextDocument)
    : gmap nat Links * Links :=
  match cache !! handle with
  | Some l => (cache, l)
  | None =>
      let l := Links_init fromPercentEncoding document documents in
      (<[handle := l]> cache, l)
  end.

End LinksCache.

(** *** The shape of the table *)

(** No file of the table is without keys and no key without
    destinations. *)
Definition table_filled (links : gmap string (gmap Key (list Destination))) : Prop :=
  forall filename l,
    links !! filename = Some l ->
    l <> ∅ /\ forall key dests, l !! key = Some dests -> dests <> [].

(** *** Writing a URL *)

Definition digit_char (d : nat) : ascii := ascii_of_nat (48 + d).

(** The decimal numeral of a number, without leading zeros: what the
    writer of a [textedit] URL puts for line, character and column. *)
Equations? decimal (n : nat) : list ascii by wf n lt :=
  decimal n with lt_dec n 10 => {
    | left _ => [digit_char n]
    | right _ => decimal (n / 10) ++ [digit_char (n mod 10)] }.
Proof.
  change (fst (Nat.divmod n 9 0 9)) with (n / 10)%nat.
  apply Nat.div_lt; lia.
Qed.

(** The URL written for a file path, a line, a character and a column. *)
Definition format_url (path : list ascii) (line char column : nat) : string :=
  str (scheme_prefix ++ path ++ colon :: decimal line
         ++ colon :: decimal char ++ colon :: decimal column).

(** Cursors at every note and opening slur of [doc_nested]; its second
    line starts at 5. *)
Definition cursors_nested : list QTextCursor :=
  at_position <$> [0; 1; 3; 5; 6; 8; 11].

(** * Properties *)

(** ** Examples *)

Example textedit_match_lilypond :
  textedit_match "textedit:///home/u/a.ly:12:4:5"
  = Some {| group1 := "/home/u/a.ly"; group2 := chars "12"; group3 := chars "4" |}.
Proof. reflexivity. Qed.

Example textedit_match_colon_in_path :
  textedit_match "textedit://a:1:2:3:4"
  = Some {| group1 := "a:1"; group2 := chars "2"; group3 := chars "3" |}.
Proof. reflexivity. Qed.

Example textedit_match_no_tail : textedit_match "textedit:///a.ly:2:4" = None.
Proof. reflexivity. Qed.

Example textedit_match_other_scheme : textedit_match "http:///a.ly:2:4:4" = None.
Proof. reflexivity. Qed.

Example end_to_end :
  let l := Links_init id pdf_a [doc_a] in
  Links_lookup l "/a.ly" (2, 4) = [(0, rect0)]
  /\ (_cursors <$> _docs l !! "/a.ly"%string) = Some [at_position 24]
  /\ Links_cursor id (fun _ => None) l "textedit:///a.ly:2:4:5" false
     = (l, Return (Some (at_position 24)))
  /\ ((fun b => BoundLinks_indices b (at_position 24)) <$> _docs l !! "/a.ly"%string)
     = Some (Slice 0 1).
Proof. vm_compute. repeat split; reflexivity. Qed.

(** ** The binary search *)

Lemma strictly_increasing_nth cursors i j :
  strictly_increasing cursors -> (i < j < length cursors)%nat ->
  position (cursor_at cursors i) < position (cursor_at cursors j).
Proof.
  unfold strictly_increasing, cursor_at. intros Hs.
  apply Sorted_StronglySorted in Hs; [| intros x y z; lia].
  revert i j. induction cursors as [| c cs IH]; intros i j Hij; simpl in *.
  - lia.
  - apply StronglySorted_inv in Hs as [Hs Hall].
    destruct j as [| j]; [lia |]. destruct i as [| i].
    + rewrite Forall_forall in Hall. apply Hall.
      apply list_elem_of_fmap. exists (nth j cs (at_position 0)). split; [done |].
      apply list_elem_of_In, nth_In. lia.
    + apply IH; [done | lia].
Qed.

Lemma strictly_increasing_le cursors i j :
  strictly_increasing cursors -> (i <= j < length cursors)%nat ->
  position (cursor_at cursors i) <= position (cursor_at cursors j).
Proof.
  intros Hs Hij. destruct (decide (i = j)) as [-> | Hne]; [lia |].
  pose proof (strictly_increasing_nth cursors i j Hs). lia.
Qed.

Lemma half_bounds lo hi :
  (lo < hi)%nat -> (lo <= (lo + hi) / 2 < hi)%nat.
Proof.
  intros H. split.
  - apply Nat.div_le_lower_bound; lia.
  - apply Nat.Div0.div_lt_upper_bound; lia.
Qed.

(** The loop keeps: everything left of [lo] is at most [pos], everything
    from [hi] on is beyond [pos]. *)
Lemma findlink_loop_spec cursors pos lo hi :
  strictly_increasing cursors ->
  (lo <= hi <= length cursors)%nat ->
  (forall i, (i < lo)%nat -> position (cursor_at cursors i) <= pos) ->
  (forall i, (hi <= i < length cursors)%nat -> pos < position (cursor_at cursors i)) ->
  let r := findlink_loop cursors pos lo hi in
  (lo <= r <= hi)%nat
  /\ (forall i, (i < r)%nat -> position (cursor_at cursors i) <= pos)
  /\ (forall i, (r <= i < length cursors)%nat -> pos < position (cursor_at cursors i)).
Proof.
  intros Hs. funelim (findlink_loop cursors pos lo hi); intros Hb Hlo Hhi; cbn zeta.
  - (* lo >= hi *)
    repeat split; try lia; auto. intros i Hi. apply Hhi. lia.
  - (* pos < cursors[mid]: hi = mid *)
    match goal with Hlt : (lo < hi)%nat |- _ =>
      pose proof (half_bounds lo hi Hlt) as Hm end.
    match goal with IH : strictly_increasing _ -> _ |- _ =>
      destruct (IH Hs) as (Hr & Hl & Hu); [lia | done | |] end.
    + intros i Hi.
      pose proof (strictly_increasing_le cursors ((lo + hi) / 2) i Hs). lia.
    + repeat split; try lia; auto.
  - (* cursors[mid] <= pos: lo = mid + 1 *)
    match goal with Hlt : (lo < hi)%nat |- _ =>
      pose proof (half_bounds lo hi Hlt) as Hm end.
    match goal with IH : strictly_increasing _ -> _ |- _ =>
      destruct (IH Hs) as (Hr & Hl & Hu); [lia | | done |] end.
    + intros i Hi.
      pose proof (strictly_increasing_le cursors i ((lo + hi) / 2) Hs). lia.
    + repeat split; try lia; auto.
Qed.

(** [findlink pos] is the largest index whose cursor is at or before
    [pos], and [-1] when there is none. *)
Lemma findlink_spec cursors pos :
  strictly_increasing cursors ->
  -1 <= findlink cursors pos < Z.of_nat (length cursors)
  /\ (forall i, Z.of_nat i <= findlink cursors pos ->
        position (cursor_at cursors i) <= pos)
  /\ (forall i, findlink cursors pos < Z.of_nat i -> (i < length cursors)%nat ->
        pos < position (cursor_at cursors i)).
Proof.
  intros Hs. unfold findlink.
  destruct (findlink_loop_spec cursors pos 0 (length cursors) Hs) as (Hr & Hl & Hu);
    [lia | intros; lia | intros; lia |].
  repeat split; try lia.
  - intros i Hi. apply Hl. lia.
  - intros i Hi Hlen. apply Hu. lia.
Qed.

(** The index found, from what singles it out. *)
Lemma findlink_unique cursors pos (k : nat) :
  strictly_increasing cursors ->
  (k < length cursors)%nat ->
  position (cursor_at cursors k) <= pos ->
  (forall i, (k < i < length cursors)%nat -> pos < position (cursor_at cursors i)) ->
  findlink cursors pos = Z.of_nat k.
Proof.
  intros Hs Hk Hle Hgt.
  destruct (findlink_spec cursors pos Hs) as (Hr & Hl & Hu).
  destruct (Z.lt_trichotomy (findlink cursors pos) (Z.of_nat k)) as [Hlt | [Heq | Hlt]].
  - specialize (Hu k Hlt Hk). lia.
  - done.
  - specialize (Hl (Z.to_nat (findlink cursors pos))).
    specialize (Hgt (Z.to_nat (findlink cursors pos))). lia.
Qed.

Lemma findlink_none cursors pos :
  strictly_increasing cursors ->
  (forall i, (i < length cursors)%nat -> pos < position (cursor_at cursors i)) ->
  findlink cursors pos = -1.
Proof.
  intros Hs Hgt.
  destruct (findlink_spec cursors pos Hs) as (Hr & Hl & Hu).
  destruct (decide (findlink cursors pos = -1)) as [| Hne]; [done |].
  specialize (Hl (Z.to_nat (findlink cursors pos))).
  specialize (Hgt (Z.to_nat (findlink cursors pos))). lia.
Qed.

(** ** Binding a link table to a document *)

Lemma findBlockByNumber_exists doc line :
  line_exists doc line ->
  findBlockByNumber doc (line - 1) = Some (Z.to_nat (line - 1)).
Proof.
  unfold line_exists, findBlockByNumber. intros H.
  rewrite bool_decide_eq_true_2; [done | lia].
Qed.

Lemma findBlockByNumber_not_exists doc line :
  ~ line_exists doc line -> findBlockByNumber doc (line - 1) = None.
Proof.
  unfold line_exists, findBlockByNumber. intros H.
  rewrite bool_decide_eq_false_2; [done | lia].
Qed.

Lemma bind_item_exists doc self key dest :
  line_exists doc key.1 ->
  bind_item doc self (key, dest)
  = {| _document := _document self;
       _cursor_dict := <[key := cursor_for doc key]> (_cursor_dict self);
       _cursors := _cursors self ++ [cursor_for doc key];
       _destinations := _destinations self ++ [dest] |}.
Proof.
  destruct key as [line column]. intros H. unfold bind_item.
  simpl in H. rewrite findBlockByNumber_exists by done. reflexivity.
Qed.

Lemma bind_item_not_exists doc self key dest :
  ~ line_exists doc key.1 -> bind_item doc self (key, dest) = self.
Proof.
  destruct key as [line column]. intros H. unfold bind_item.
  simpl in H. rewrite findBlockByNumber_not_exists by done. reflexivity.
Qed.

(** The loop of [__init__] over any list of items. *)
Lemma bind_items_arrays doc items self :
  _cursors (fold_left (bind_item doc) items self)
  = _cursors self ++ (cursor_for doc <$> (filter (item_exists doc) items).*1)
  /\ _destinations (fold_left (bind_item doc) items self)
     = _destinations self ++ (filter (item_exists doc) items).*2.
Proof.
  revert self. induction items as [| [key dest] items IH]; intros self;
    cbn [fold_left].
  - rewrite filter_nil. simpl. rewrite !app_nil_r. done.
  - destruct (decide (line_exists doc key.1)) as [Hex | Hex].
    + rewrite filter_cons_True by done.
      destruct (IH (bind_item doc self (key, dest))) as [Hc Hd].
      rewrite Hc, Hd, bind_item_exists by done. simpl.
      rewrite <- !app_assoc. done.
    + rewrite filter_cons_False by done.
      rewrite bind_item_not_exists by done. apply IH.
Qed.

Lemma bind_items_dict doc items self key :
  _cursor_dict (fold_left (bind_item doc) items self) !! key
  = if bool_decide (key ∈ (filter (item_exists doc) items).*1)
    then Some (cursor_for doc key)
    else _cursor_dict self !! key.
Proof.
  revert self. induction items as [| [k dest] items IH]; intros self;
    cbn [fold_left].
  - done.
  - rewrite IH. destruct (decide (line_exists doc k.1)) as [Hex | Hex].
    + rewrite filter_cons_True by done.
      rewrite bind_item_exists by done. simpl.
      destruct (decide (key = k)) as [-> | Hne].
      * rewrite lookup_insert_eq.
        rewrite (bool_decide_eq_true_2 (k ∈ k :: _)) by (simpl; apply elem_of_cons; auto).
        by case_bool_decide.
      * rewrite lookup_insert_ne by done.
        apply (f_equal (fun b : bool => if b then _ else _)).
        apply bool_decide_ext. simpl. rewrite elem_of_cons.
        split; [by right | intros [Heq | Hin]; [exfalso; by apply Hne | done]].
    + rewrite filter_cons_False by done.
      by rewrite bind_item_not_exists.
Qed.

(** *** The order of the items *)

#[global] Instance key_le_trans : Transitive key_le.
Proof. intros a b c. unfold key_le. lia. Qed.

#[global] Instance key_le_total : Total key_le.
Proof. intros a b. unfold key_le. lia. Qed.

#[global] Instance item_le_trans {A} : Transitive (@item_le A).
Proof. intros a b c. unfold item_le. apply key_le_trans. Qed.

#[global] Instance item_le_total {A} : Total (@item_le A).
Proof. intros a b. unfold item_le. apply key_le_total. Qed.

Lemma key_le_ne_lt (a b : Key) : key_le a b -> a <> b -> key_lt a b.
Proof.
  destruct a as [l1 c1], b as [l2 c2]. unfold key_le, key_lt. simpl.
  intros H Hne. assert (l1 <> l2 \/ c1 <> c2) by
    (destruct (decide (l1 = l2)); [right; congruence | left; done]).
  lia.
Qed.

Lemma sorted_items_perm links : sorted_items links ≡ₚ map_to_list links.
Proof. apply merge_sort_Permutation. Qed.

Lemma sorted_items_sorted links : StronglySorted item_le (sorted_items links).
Proof. apply StronglySorted_merge_sort; apply _. Qed.

Lemma sorted_items_NoDup links : NoDup (sorted_items links).*1.
Proof.
  rewrite (sorted_items_perm links). apply NoDup_fst_map_to_list.
Qed.

Lemma sorted_items_lookup links key dest :
  (key, dest) ∈ sorted_items links <-> links !! key = Some dest.
Proof. rewrite (sorted_items_perm links). apply elem_of_map_to_list. Qed.

Lemma sorted_items_keys links key :
  key ∈ (sorted_items links).*1 <-> is_Some (links !! key).
Proof.
  rewrite list_elem_of_fmap. split.
  - intros ([k d] & -> & Hin). apply sorted_items_lookup in Hin. eauto.
  - intros [d Hd]. exists (key, d). split; [done |].
    by apply sorted_items_lookup.
Qed.

(** Distinct keys in ascending order are in strictly ascending order. *)
Lemma sorted_strict {A} (items : list (Key * A)) :
  StronglySorted item_le items -> NoDup items.*1 ->
  StronglySorted (fun x y => key_lt x.1 y.1) items.
Proof.
  induction 1 as [| x xs Hs IH Hall]; intros Hnd; [constructor |].
  simpl in Hnd. apply NoDup_cons in Hnd as [Hnotin Hnd].
  constructor; [auto |].
  rewrite Forall_forall in Hall |- *. intros y Hy.
  apply key_le_ne_lt; [by apply Hall |].
  intros Heq. apply Hnotin. rewrite Heq.
  apply list_elem_of_fmap. eauto.
Qed.

(** *** Positions of blocks *)

Lemma blocks_position_step bs n b m :
  bs !! n = Some b -> (n < m <= length bs)%nat ->
  blocks_position bs n + block_size b <= blocks_position bs m.
Proof.
  revert n m. induction bs as [| b0 bs IH]; intros n m Hn Hm; [done |].
  destruct m as [| m]; [lia |]. destruct n as [| n]; simpl in *.
  - injection Hn as ->.
    assert (0 <= blocks_position bs m); [| lia].
    clear. revert m. induction bs as [| b1 bs IH]; intros [| m]; simpl; try lia.
    specialize (IH m). unfold block_size. lia.
  - specialize (IH n m Hn). lia.
Qed.

Lemma blocks_position_nonneg bs n : 0 <= blocks_position bs n.
Proof.
  revert n. induction bs as [| b bs IH]; intros [| n]; simpl; try lia.
  specialize (IH n). unfold block_size. lia.
Qed.

Lemma setPosition_in_range doc p :
  0 <= p < document_length doc -> setPosition doc p = at_position p.
Proof. intros H. unfold setPosition. by rewrite bool_decide_eq_true_2. Qed.

Lemma setPosition_no_selection doc p : hasSelection (setPosition doc p) = false.
Proof.
  unfold setPosition, hasSelection, at_position.
  case_bool_decide; cbn [anchor position]; by rewrite Z.eqb_refl.
Qed.

(** A column inside its line gives an offset inside the document. *)
Lemma key_offset_in_document doc (key : Key) :
  line_exists doc key.1 -> 0 <= key.2 <= line_length doc key.1 ->
  0 <= key_offset doc key < document_length doc.
Proof.
  destruct key as [l c].
  unfold line_exists, line_length, key_offset, document_length, block_position.
  simpl. intros Hl Hc.
  pose proof (blocks_position_nonneg (doc_blocks doc) (Z.to_nat (l - 1))).
  destruct (doc_blocks doc !! Z.to_nat (l - 1)) as [b |] eqn:Hb.
  - pose proof (blocks_position_step (doc_blocks doc) (Z.to_nat (l - 1)) b
                  (length (doc_blocks doc)) Hb) as Hstep.
    unfold block_size in Hstep. lia.
  - apply lookup_ge_None in Hb. lia.
Qed.

Lemma cursor_for_in_line doc (key : Key) :
  line_exists doc key.1 -> 0 <= key.2 <= line_length doc key.1 ->
  cursor_for doc key = at_position (key_offset doc key).
Proof.
  intros Hl Hc. unfold cursor_for.
  by apply setPosition_in_range, key_offset_in_document.
Qed.

(** Keys in strictly ascending order, on lines that exist and with columns
    inside their lines, get strictly ascending positions. *)
Lemma cursor_for_lt doc (k1 k2 : Key) :
  key_lt k1 k2 ->
  line_exists doc k1.1 -> line_exists doc k2.1 ->
  0 <= k1.2 <= line_length doc k1.1 -> 0 <= k2.2 <= line_length doc k2.1 ->
  position (cursor_for doc k1) < position (cursor_for doc k2).
Proof.
  intros Hlt H1 H2 Hc1 Hc2.
  rewrite !cursor_for_in_line by done. simpl.
  destruct k1 as [l1 c1], k2 as [l2 c2].
  unfold key_lt, line_exists, line_length, key_offset, block_position in *.
  simpl in *.
  destruct Hlt as [Hlt | [-> Hlt]]; [| lia].
  destruct (doc_blocks doc !! Z.to_nat (l1 - 1)) as [b |] eqn:Hb.
  - pose proof (blocks_position_step (doc_blocks doc) (Z.to_nat (l1 - 1)) b
                  (Z.to_nat (l2 - 1)) Hb) as Hstep.
    unfold block_size in Hstep. lia.
  - apply lookup_ge_None in Hb. lia.
Qed.

Lemma kept_positions_sorted doc (items : list (Key * list Destination)) :
  StronglySorted (fun x y => key_lt x.1 y.1) items ->
  Forall (fun it => line_exists doc it.1.1 -> 0 <= it.1.2 <= line_length doc it.1.1)
         items ->
  StronglySorted Z.lt
    (position <$> (cursor_for doc <$> (filter (item_exists doc) items).*1)).
Proof.
  induction 1 as [| x xs Hs IH Hall]; intros Hcols.
  - rewrite filter_nil. constructor.
  - apply Forall_cons in Hcols as [Hx Hcols].
    destruct (decide (item_exists doc x)) as [Hex | Hex].
    + rewrite filter_cons_True by done. rewrite !fmap_cons.
      constructor; [auto |].
      rewrite Forall_forall in Hall. rewrite Forall_forall in Hcols.
      rewrite Forall_forall. intros p Hp.
      apply list_elem_of_fmap in Hp as (c & -> & Hc).
      apply list_elem_of_fmap in Hc as (k & -> & Hk).
      apply list_elem_of_fmap in Hk as (y & -> & Hy).
      apply list_elem_of_filter in Hy as [Hyex Hy].
      apply cursor_for_lt; auto.
    + rewrite filter_cons_False by done. auto.
Qed.

Lemma BoundLinks_init_cursors doc links :
  _cursors (BoundLinks_init doc links)
  = cursor_for doc <$> (filter (item_exists doc) (sorted_items links)).*1.
Proof.
  unfold BoundLinks_init.
  destruct (bind_items_arrays doc (sorted_items links)
              {| _document := doc; _cursor_dict := ∅;
                 _cursors := []; _destinations := [] |}) as [Hc _].
  exact Hc.
Qed.

Lemma BoundLinks_init_destinations doc links :
  _destinations (BoundLinks_init doc links)
  = (filter (item_exists doc) (sorted_items links)).*2.
Proof.
  unfold BoundLinks_init.
  destruct (bind_items_arrays doc (sorted_items links)
              {| _document := doc; _cursor_dict := ∅;
                 _cursors := []; _destinations := [] |}) as [_ Hd].
  exact Hd.
Qed.

Lemma BoundLinks_init_dict doc links key :
  _cursor_dict (BoundLinks_init doc links) !! key
  = if bool_decide (is_Some (links !! key) /\ line_exists doc key.1)
    then Some (cursor_for doc key) else None.
Proof.
  unfold BoundLinks_init. rewrite bind_items_dict. simpl.
  rewrite lookup_empty.
  apply (f_equal (fun b : bool => if b then _ else _)).
  apply bool_decide_ext.
  rewrite <- sorted_items_keys, !list_elem_of_fmap. split.
  - intros (it & -> & Hin). apply list_elem_of_filter in Hin as [Hex Hin].
    split; [eauto | done].
  - intros [(it & -> & Hin) Hex]. exists it. split; [done |].
    apply list_elem_of_filter. done.
Qed.




(** C8: the exact lookup returns the cursor made for the key when the key
    is in the table and its line existed at binding time, and raises
    [KeyError] in every other case, among them the keys of the table whose
    line was beyond the document. *)
Theorem BoundLinks_cursor_bound doc links line column :
  BoundLinks_cursor (BoundLinks_init doc links) line column
  = if bool_decide (is_Some (links !! (line, column)) /\ line_exists doc line)
    then Return (cursor_for doc (line, column))
    else Raise (KeyError (line, column)).
Proof.
  unfold BoundLinks_cursor. rewrite BoundLinks_init_dict. simpl.
  by case_bool_decide.
Qed.

(** C2, amended: when every key whose line exists has its column inside
    that line, the cursors are strictly increasing in position right after
    the construction. *)
Theorem cursors_strictly_increasing doc links :
  columns_in_lines doc links ->
  strictly_increasing (_cursors (BoundLinks_init doc links)).
Proof.
  intros Hcols. unfold strictly_increasing.
  rewrite BoundLinks_init_cursors.
  apply StronglySorted_Sorted, kept_positions_sorted.
  - apply sorted_strict; [apply sorted_items_sorted | apply sorted_items_NoDup].
  - unfold columns_in_lines in Hcols.
    rewrite map_Forall_to_list, <- (sorted_items_perm links) in Hcols.
    eapply Forall_impl; [exact Hcols |]. intros [k d] H. exact H.
Qed.

Lemma cursors_strictly_increasing_witness :
  columns_in_lines doc_a links_a
  /\ strictly_increasing (_cursors (BoundLinks_init doc_a links_a)).
Proof.
  assert (H : columns_in_lines doc_a links_a)
    by (apply (bool_decide_unpack (columns_in_lines doc_a links_a));
        vm_compute; exact I).
  split; [exact H | apply (cursors_strictly_increasing doc_a links_a H)].
Defined.

(** C2 as stated fails: the stale table puts both cursors at position 3. *)
Lemma cursors_not_strictly_increasing :
  position <$> _cursors (BoundLinks_init doc_short links_stale) = [3; 3]
  /\ ~ strictly_increasing (_cursors (BoundLinks_init doc_short links_stale)).
Proof.
  assert (H : position <$> _cursors (BoundLinks_init doc_short links_stale) = [3; 3])
    by (vm_compute; reflexivity).
  split; [exact H |].
  unfold strictly_increasing. rewrite H. intros Hs.
  apply Sorted_inv in Hs as [_ Hd]. apply HdRel_inv in Hd. lia.
Qed.

Example BoundLinks_init_skips_line_7 :
  position <$> _cursors (BoundLinks_init doc_a links_a) = [0; 24]
  /\ _destinations (BoundLinks_init doc_a links_a) = [[(0, rect1)]; [(0, rect0)]]
  /\ BoundLinks_cursor (BoundLinks_init doc_a links_a) 2 4 = Return (at_position 24)
  /\ BoundLinks_cursor (BoundLinks_init doc_a links_a) 7 1 = Raise (KeyError (7, 1)).
Proof. vm_compute. repeat split; reflexivity. Qed.

(** ** The selection query *)

Lemma spec_smallest_index_Some P cursors off k :
  (k < length cursors)%nat ->
  P (cursor_at cursors k) = true ->
  (forall i, (i < k)%nat -> P (cursor_at cursors i) = false) ->
  spec_smallest_index P cursors off = Some (off + k)%nat.
Proof.
  unfold cursor_at. revert off k.
  induction cursors as [| c cs IH]; intros off k Hk Hp Hbefore; simpl in *; [lia |].
  destruct k as [| k].
  - rewrite Hp. f_equal. lia.
  - rewrite (Hbefore 0%nat) by lia.
    rewrite (IH (S off) k); [f_equal; lia | lia | done |].
    intros i Hi. apply (Hbefore (S i)). lia.
Qed.

Lemma spec_smallest_index_None P cursors off :
  (forall i, (i < length cursors)%nat -> P (cursor_at cursors i) = false) ->
  spec_smallest_index P cursors off = None.
Proof.
  unfold cursor_at. revert off.
  induction cursors as [| c cs IH]; intros off Hall; simpl in *; [done |].
  rewrite (Hall 0%nat) by lia. apply IH.
  intros i Hi. apply (Hall (S i)). lia.
Qed.

Lemma spec_largest_index_None P cursors off :
  (forall i, (i < length cursors)%nat -> P (cursor_at cursors i) = false) ->
  spec_largest_index P cursors off = None.
Proof.
  unfold cursor_at. revert off.
  induction cursors as [| c cs IH]; intros off Hall; simpl in *; [done |].
  rewrite IH.
  - by rewrite (Hall 0%nat) by lia.
  - intros i Hi. apply (Hall (S i)). lia.
Qed.

Lemma spec_largest_index_Some P cursors off k :
  (k < length cursors)%nat ->
  P (cursor_at cursors k) = true ->
  (forall i, (k < i < length cursors)%nat -> P (cursor_at cursors i) = false) ->
  spec_largest_index P cursors off = Some (off + k)%nat.
Proof.
  revert off k.
  induction cursors as [| c cs IH]; intros off k Hk Hp Hafter; simpl in *; [lia |].
  destruct k as [| k].
  - rewrite spec_largest_index_None.
    + unfold cursor_at in Hp. simpl in Hp. rewrite Hp. f_equal. lia.
    + intros i Hi. apply (Hafter (S i)). lia.
  - rewrite (IH (S off) k); [f_equal; lia | lia | exact Hp |].
    intros i Hi. apply (Hafter (S i)). lia.
Qed.

Lemma hasSelection_bounds cursor :
  hasSelection cursor = true -> selectionStart cursor < selectionEnd cursor.
Proof.
  unfold hasSelection, selectionStart, selectionEnd.
  intros H. apply negb_true_iff, Z.eqb_neq in H. lia.
Qed.

(** The code of the selection case does what the spec's words say. *)
Lemma indices_selection_spec cursors cursor :
  strictly_increasing cursors ->
  selectionStart cursor < selectionEnd cursor ->
  indices_selection cursors cursor
  = spec_selection cursors (selectionStart cursor) (selectionEnd cursor).
Proof.
  intros Hs Hlt. unfold indices_selection, spec_selection.
  set (s := selectionStart cursor) in *. set (e := selectionEnd cursor) in *.
  destruct (findlink_spec cursors (e - 1) Hs) as (Hre & Hle & Hue).
  destruct (findlink_spec cursors s Hs) as (Hrs & Hls & Hus).
  set (re := findlink cursors (e - 1)) in *.
  set (rs := findlink cursors s) in *.
  destruct (Z.leb_spec 0 re) as [Hre0 | Hre0].
  - (* there is an index with position < end *)
    rewrite (spec_largest_index_Some _ cursors 0 (Z.to_nat re)); cycle 1.
    { lia. }
    { apply Z.ltb_lt. specialize (Hle (Z.to_nat re)). lia. }
    { intros i Hi. apply Z.ltb_ge. specialize (Hue i). lia. }
    destruct (Z.ltb_spec rs 0) as [Hrs0 | Hrs0]; simpl orb.
    + (* nothing at or before start: the first cursor is the smallest *)
      rewrite (spec_smallest_index_Some _ cursors 0 0); cycle 1.
      { lia. }
      { apply Z.leb_le. specialize (Hus 0%nat). lia. }
      { intros i Hi. lia. }
      replace (rs + 1) with 0 by lia. simpl Nat.add.
      rewrite (proj2 (Z.leb_le 0 re)) by lia.
      rewrite (proj2 (Nat.leb_le 0 (Z.to_nat re))) by lia.
      f_equal; lia.
    + destruct (Z.ltb_spec (position (cursor_at cursors (Z.to_nat rs))) s)
        as [Hps | Hps].
      * (* cursors[start] is before start: step to the next one *)
        destruct (decide (rs + 1 < Z.of_nat (length cursors))) as [Hin | Hout].
        -- rewrite (spec_smallest_index_Some _ cursors 0 (Z.to_nat (rs + 1))); cycle 1.
           { lia. }
           { apply Z.leb_le. specialize (Hus (Z.to_nat (rs + 1))). lia. }
           { intros i Hi. apply Z.leb_gt.
             pose proof (strictly_increasing_le cursors i (Z.to_nat rs) Hs). lia. }
           simpl Nat.add.
           destruct (Z.leb_spec (rs + 1) re); destruct (Nat.leb_spec (Z.to_nat (rs + 1)) (Z.to_nat re));
             try lia; [f_equal; lia | done].
        -- rewrite spec_smallest_index_None.
           ++ destruct (Z.leb_spec (rs + 1) re); [lia | done].
           ++ intros i Hi. apply Z.leb_gt.
              pose proof (strictly_increasing_le cursors i (Z.to_nat rs) Hs). lia.
      * (* cursors[start] is at start *)
        rewrite (spec_smallest_index_Some _ cursors 0 (Z.to_nat rs)); cycle 1.
        { lia. }
        { apply Z.leb_le. lia. }
        { intros i Hi. apply Z.leb_gt.
          pose proof (strictly_increasing_nth cursors i (Z.to_nat rs) Hs).
          specialize (Hls (Z.to_nat rs)). lia. }
        simpl Nat.add.
        destruct (Z.leb_spec rs re); destruct (Nat.leb_spec (Z.to_nat rs) (Z.to_nat re));
          try lia; [f_equal; lia | done].
  - (* no index with position < end *)
    rewrite spec_largest_index_None; [done |].
    intros i Hi. apply Z.ltb_ge. specialize (Hue i). lia.
Qed.

(** C4, amended: for a selection on cursors that are strictly increasing
    in position, [indices] is what the spec says: Clear
    without an index whose position is below the end; else
    [Match([startIdx, endIdx+1))] if [startIdx <= endIdx], else Clear. A
    selection that ends at or before the first cursor, or starts after the
    last one, gives Clear. *)
Theorem indices_selection_query doc cursors cursor :
  strictly_increasing cursors ->
  hasSelection cursor = true ->
  indices doc cursors cursor
  = spec_selection cursors (selectionStart cursor) (selectionEnd cursor)
  /\ ((forall i, (i < length cursors)%nat ->
         selectionEnd cursor <= position (cursor_at cursors i)) ->
      indices doc cursors cursor = ReturnFalse)
  /\ ((forall i, (i < length cursors)%nat ->
         position (cursor_at cursors i) < selectionStart cursor) ->
      indices doc cursors cursor = ReturnFalse).
Proof.
  intros Hs Hsel. pose proof (hasSelection_bounds cursor Hsel) as Hlt.
  assert (Heq : indices doc cursors cursor
                = spec_selection cursors (selectionStart cursor) (selectionEnd cursor)).
  { unfold indices. rewrite Hsel. by apply indices_selection_spec. }
  split; [exact Heq |]. rewrite Heq. unfold spec_selection. split.
  - intros Hbefore. rewrite spec_largest_index_None; [done |].
    intros i Hi. apply Z.ltb_ge. auto.
  - intros Hafter. rewrite (spec_smallest_index_None _ cursors).
    + by destruct (spec_largest_index _ cursors 0).
    + intros i Hi. apply Z.leb_gt. auto.
Qed.

Lemma cursors_ex_increasing : strictly_increasing cursors_ex.
Proof. unfold strictly_increasing. vm_compute. repeat constructor. Qed.

Lemma indices_selection_query_witness :
  strictly_increasing cursors_ex
  /\ hasSelection {| anchor := 9; position := 28 |} = true
  /\ indices doc_ex cursors_ex {| anchor := 9; position := 28 |} = Slice 2 6.
Proof.
  split; [exact cursors_ex_increasing |]. split; [reflexivity |].
  destruct (indices_selection_query doc_ex cursors_ex {| anchor := 9; position := 28 |}
              cursors_ex_increasing eq_refl) as [H _].
  rewrite H. vm_compute. reflexivity.
Defined.

(** C4 as stated fails without the order: the binding of the stale table
    has its two cursors at 3; for the selection from 3 to 4 the largest
    index below the end is 1 and the smallest index at or behind the start
    is 0, which asks for [Match([0, 2))], and [indices] returns the slice
    of index 1 alone. *)
Lemma indices_selection_unordered :
  position <$> _cursors (BoundLinks_init doc_short links_stale) = [3; 3]
  /\ hasSelection {| anchor := 3; position := 4 |} = true
  /\ spec_selection (_cursors (BoundLinks_init doc_short links_stale)) 3 4
     = Slice 0 2
  /\ BoundLinks_indices (BoundLinks_init doc_short links_stale)
       {| anchor := 3; position := 4 |} = Slice 1 2.
Proof. repeat split; vm_compute; reflexivity. Qed.

(** ** The point query *)

Lemma indices_no_selection doc cursors cursor :
  hasSelection cursor = false ->
  indices doc cursors cursor = indices_point doc cursors cursor.
Proof. intros H. unfold indices. by rewrite H. Qed.

(** C5, amended: for a point query on cursors that are strictly
    increasing in position: a caret before the first cursor gives
    Indeterminate ([None]), and a caret exactly at the cursor of index [idx]
    gives [Match([idx, idx+1))]. *)
Theorem indices_point_query doc cursors cursor :
  strictly_increasing cursors ->
  hasSelection cursor = false ->
  (forall first rest, cursors = first :: rest ->
     position cursor < position first ->
     indices doc cursors cursor = ReturnNone)
  /\ (forall idx, (idx < length cursors)%nat ->
        position (cursor_at cursors idx) = position cursor ->
        indices doc cursors cursor = Slice (Z.of_nat idx) (Z.of_nat idx + 1)).
Proof.
  intros Hs Hsel. rewrite (indices_no_selection _ _ _ Hsel). split.
  - intros first rest -> Hlt. unfold indices_point.
    rewrite findlink_none; [done | done |].
    intros i Hi.
    assert (Hle : position (cursor_at (first :: rest) 0)
                  <= position (cursor_at (first :: rest) i))
      by (apply strictly_increasing_le; [done | lia]).
    change (cursor_at (first :: rest) 0) with first in Hle. lia.
  - intros idx Hidx Heq. unfold indices_point.
    rewrite (findlink_unique cursors (position cursor) idx); [| done | done | lia |].
    + rewrite Nat2Z.id, Heq, Z.ltb_irrefl.
      by rewrite (proj2 (Z.ltb_ge _ _)) by lia.
    + intros i Hi. pose proof (strictly_increasing_nth cursors idx i Hs). lia.
Qed.

Lemma indices_point_query_witness :
  strictly_increasing cursors_ex
  /\ hasSelection (at_position 14) = false
  /\ indices doc_ex cursors_ex (at_position 1) = ReturnNone
  /\ indices doc_ex cursors_ex (at_position 14) = Slice 3 4.
Proof.
  split; [exact cursors_ex_increasing |]. split; [reflexivity |]. split.
  - destruct (indices_point_query doc_ex cursors_ex (at_position 1)
                cursors_ex_increasing eq_refl) as [H _].
    apply (H (at_position 2) (map at_position [5; 9; 14; 20; 27; 31]) eq_refl).
    simpl. lia.
  - destruct (indices_point_query doc_ex cursors_ex (at_position 14)
                cursors_ex_increasing eq_refl) as [_ H].
    apply (H 3%nat); [simpl; lia | reflexivity].
Defined.

(** C5 as stated fails without the order. The binding of the crossed
    table has its cursors at 5 and 3: the caret at 4 is before the first
    cursor and gets the slice of index 1, not [None]. The binding of the
    stale table has both cursors at 3: the caret at 3 is at the cursor of
    index 0 and gets the slice of index 1. *)
Lemma indices_point_unordered :
  (position <$> _cursors (BoundLinks_init doc_short links_crossed) = [5; 3]
   /\ hasSelection (at_position 4) = false
   /\ BoundLinks_indices (BoundLinks_init doc_short links_crossed) (at_position 4)
      = Slice 1 2)
  /\ (position <$> _cursors (BoundLinks_init doc_short links_stale) = [3; 3]
      /\ BoundLinks_indices (BoundLinks_init doc_short links_stale) (at_position 3)
         = Slice 1 2).
Proof. repeat split; vm_compute; reflexivity. Qed.

(** *** The first scan *)

Lemma find_end_pass prevcol col b passed line before :
  Forall (passed_over prevcol col) passed ->
  find_end prevcol col b (passed ++ line) before
  = find_end prevcol col b line before.
Proof.
  induction 1 as [| t ts [Hprev Ht] _ IH]; [done |].
  change ((t :: ts) ++ line) with (t :: (ts ++ line)). cbn [find_end].
  rewrite (proj2 (Z.leb_gt _ _)) by lia.
  destruct (Z.leb_spec (tok_pos t) col) as [Hcol | Hcol]; [| exact IH].
  destruct Ht as [Ht | Ht]; [lia |].
  unfold recognized_closer in Ht.
  destruct (tok_class t) as [n | n |]; try exact IH.
  by destruct (slur_like n).
Qed.

Lemma find_end_skip prevcol col b skipped line before :
  prevcol <= col ->
  Forall (fun t => col < tok_pos t) skipped ->
  find_end prevcol col b (skipped ++ line) before
  = find_end prevcol col b line before.
Proof.
  intros Hpc Hskip. apply find_end_pass.
  eapply Forall_impl; [exact Hskip |].
  intros t Ht. simpl in Ht. split; [lia | by left].
Qed.

Lemma scan_at_closer doc prevcol col b passed closer name rest :
  backward_line doc b = passed ++ closer :: rest ->
  Forall (passed_over prevcol col) passed ->
  prevcol < tok_pos closer <= col ->
  recognized_closer closer = Some name ->
  scan doc prevcol col (Some b)
  = find_start name 1 (map (pair b) rest ++ backward_blocks doc b).
Proof.
  intros Hline Hpass Hpos Hcls. unfold scan.
  rewrite Hline, find_end_pass by done. cbn [find_end].
  rewrite (proj2 (Z.leb_gt _ _)) by lia.
  rewrite (proj2 (Z.leb_le _ _)) by lia.
  unfold recognized_closer in Hcls.
  destruct (tok_class closer) as [n | n |]; [done | | done].
  destruct (slur_like n); [| done]. by injection Hcls as ->.
Qed.

Lemma scan_no_closer doc prevcol col b passed stop :
  backward_line doc b = passed ++ stop ->
  Forall (passed_over prevcol col) passed ->
  match stop with [] => True | t :: _ => tok_pos t <= prevcol end ->
  scan doc prevcol col (Some b) = None.
Proof.
  intros Hline Hpass Hstop. unfold scan.
  rewrite Hline, find_end_pass by done.
  destruct stop as [| t stop]; [done |]. cbn [find_end].
  by rewrite (proj2 (Z.leb_le _ _)) by lia.
Qed.

(** C10, amended: the first scan goes leftward over the tokens of the
    caret's line. It passes over every token right of the lower bound that
    is right of the caret column or is no recognised closing token. It ends
    at the first recognised closing token at or before the caret column
    (and right of the lower bound), where the second scan takes over on
    what the iterator still yields; or it ends with nothing found at the
    first token at or before the lower bound, or when the line is used
    up. *)
Theorem first_scan_stops_at_closer doc prevcol col b passed :
  Forall (passed_over prevcol col) passed ->
  (forall closer name rest,
     backward_line doc b = passed ++ closer :: rest ->
     prevcol < tok_pos closer <= col ->
     recognized_closer closer = Some name ->
     scan doc prevcol col (Some b)
     = find_start name 1 (map (pair b) rest ++ backward_blocks doc b))
  /\ (forall stop,
        backward_line doc b = passed ++ stop ->
        match stop with [] => True | t :: _ => tok_pos t <= prevcol end ->
        scan doc prevcol col (Some b) = None).
Proof.
  intros Hpass. split.
  - intros closer name rest Hline Hpos Hcls. by eapply scan_at_closer.
  - intros stop Hline Hstop. by eapply scan_no_closer.
Qed.

(** On [c( d) e] with the caret behind [e]: the scan passes over [e] and
    stops at [)]. *)
Lemma first_scan_stops_at_closer_witness :
  Forall (passed_over 0 7) [tok 6 PlainToken]
  /\ scan doc_slur 0 7 (Some 1%nat)
     = find_start "slur" 1
         (map (pair 1%nat) [tok 3 PlainToken; tok 1 (MatchStart "slur");
                            tok 0 PlainToken]
          ++ backward_blocks doc_slur 1).
Proof.
  assert (Hpass : Forall (passed_over 0 7) [tok 6 PlainToken]).
  { constructor; [| constructor]. split; [simpl; lia | by right]. }
  split; [exact Hpass |].
  destruct (first_scan_stops_at_closer doc_slur 0 7 1 [tok 6 PlainToken] Hpass)
    as [H _].
  apply (H (tok 4 (MatchEnd "slur")) "slur"%string
           [tok 3 PlainToken; tok 1 (MatchStart "slur"); tok 0 PlainToken]).
  - reflexivity.
  - simpl. lia.
  - reflexivity.
Defined.

(** C10 as stated fails. On [c( d) e] with the lower bound 0 and the caret
    column 7 the nearest token at or before the caret is [e], no closing
    token; the scan does not end there: it goes on to the closing slur
    further left and finds its opening token. With the cursors at 15, 16
    and 18 the caret at 22, behind [e], gets the slice of the cursor at the
    opening slur. *)
Lemma first_scan_goes_on :
  backward_line doc_slur 1
  = [tok 6 PlainToken; tok 4 (MatchEnd "slur"); tok 3 PlainToken;
     tok 1 (MatchStart "slur"); tok 0 PlainToken]
  /\ recognized_closer (tok 6 PlainToken) = None
  /\ scan doc_slur 0 7 (Some 1%nat) = Some (1%nat, tok 1 (MatchStart "slur"))
  /\ indices doc_slur cursors_slur (at_position 22) = Slice 1 2.
Proof. repeat split; vm_compute; reflexivity. Qed.

(** *** The caret behind the nearest cursor *)

(** The point query behind the nearest cursor, by what the scan returns. *)
Lemma indices_point_scan doc cursors cursor idx blk :
  strictly_increasing cursors ->
  hasSelection cursor = false ->
  (idx < length cursors)%nat ->
  position (cursor_at cursors idx) < position cursor ->
  (forall i, (idx < i < length cursors)%nat ->
     position cursor < position (cursor_at cursors i)) ->
  cursor_block doc cursor = Some blk ->
  indices doc cursors cursor
  = match scan doc
            (if bool_decide (cursor_block doc (cursor_at cursors idx) = Some blk)
             then position (cursor_at cursors idx) - block_position doc blk
             else -1)
            (position cursor - block_position doc blk) (Some blk) with
    | Some (tokens_block, token) =>
        let index := findlink cursors (block_position doc tokens_block + tok_pos token) in
        if (index <? 0)
           || negb (bool_decide
                      (cursor_block doc (cursor_at cursors (Z.to_nat index))
                       = Some tokens_block))
        then ReturnNone
        else Slice index (index + 1)
    | None =>
        if bool_decide (cursor_block doc (cursor_at cursors idx) = Some blk)
        then Slice (Z.of_nat idx) (Z.of_nat idx + 1)
        else ReturnFalse
    end.
Proof.
  intros Hs Hsel Hidx Hlt Hnext Hblk.
  rewrite (indices_no_selection _ _ _ Hsel). unfold indices_point.
  rewrite (findlink_unique cursors (position cursor) idx) by (done || lia).
  rewrite Nat2Z.id.
  rewrite (proj2 (Z.ltb_ge _ _)) by lia.
  rewrite (proj2 (Z.ltb_lt _ _) Hlt).
  rewrite Hblk. simpl position_of_block.
  assert (Hprev :
    (if bool_decide (cursor_block doc (cursor_at cursors idx) = Some blk)
     then position (cursor_at cursors idx)
          - position_of_block doc (cursor_block doc (cursor_at cursors idx))
     else -1)
    = (if bool_decide (cursor_block doc (cursor_at cursors idx) = Some blk)
       then position (cursor_at cursors idx) - block_position doc blk
       else -1)).
  { case_bool_decide as Hsame; [by rewrite Hsame | done]. }
  rewrite Hprev.
  destruct (scan doc _ _ (Some blk)) as [[b token] |]; [done |].
  by case_bool_decide.
Qed.

Lemma resolved_index doc cursors b token r :
  strictly_increasing cursors ->
  (r < length cursors)%nat ->
  position (cursor_at cursors r) = block_position doc b + tok_pos token ->
  cursor_block doc (cursor_at cursors r) = Some b ->
  (let index := findlink cursors (block_position doc b + tok_pos token) in
   if (index <? 0)
      || negb (bool_decide
                 (cursor_block doc (cursor_at cursors (Z.to_nat index)) = Some b))
   then ReturnNone
   else Slice index (index + 1))
  = Slice (Z.of_nat r) (Z.of_nat r + 1).
Proof.
  intros Hs Hr Hpos Hblock. cbv zeta.
  rewrite (findlink_unique cursors (block_position doc b + tok_pos token) r);
    [| done | done | lia |].
  - rewrite Nat2Z.id, Hblock.
    rewrite (proj2 (Z.ltb_ge _ _)) by lia.
    by rewrite bool_decide_eq_true_2.
  - intros i Hi. pose proof (strictly_increasing_nth cursors r i Hs). lia.
Qed.

(** C1, amended: a point query on cursors that are strictly increasing in
    position, with the caret in block [blk] and strictly behind the nearest
    cursor at or before it (index [idx]). The first scan passes over the
    tokens [passed]. If it then meets a recognised closing token [closer]
    and the second scan finds its opening token, and a cursor stands
    exactly at that token, in the token's block, the result is [Match] on
    that cursor's index. If the second scan finds no opening token, or the
    first scan meets no closing token at all, the result is Clear ([False])
    when the cursor [idx] is in another block than the caret, and
    [Match([idx, idx+1))] when it is in the caret's block. *)
Theorem indices_behind_cursor doc cursors cursor idx blk :
  strictly_increasing cursors ->
  hasSelection cursor = false ->
  (idx < length cursors)%nat ->
  position (cursor_at cursors idx) < position cursor ->
  (forall i, (idx < i < length cursors)%nat ->
     position cursor < position (cursor_at cursors i)) ->
  cursor_block doc cursor = Some blk ->
  let same := bool_decide (cursor_block doc (cursor_at cursors idx) = Some blk) in
  let prevcol :=
    if same then position (cursor_at cursors idx) - block_position doc blk
    else -1 in
  let col := position cursor - block_position doc blk in
  let unresolved :=
    if same then Slice (Z.of_nat idx) (Z.of_nat idx + 1) else ReturnFalse in
  (forall passed closer name rest,
     backward_line doc blk = passed ++ closer :: rest ->
     Forall (passed_over prevcol col) passed ->
     prevcol < tok_pos closer <= col ->
     recognized_closer closer = Some name ->
     match find_start name 1 (map (pair blk) rest ++ backward_blocks doc blk) with
     | Some (b, opener) =>
         forall r, (r < length cursors)%nat ->
           position (cursor_at cursors r) = block_position doc b + tok_pos opener ->
           cursor_block doc (cursor_at cursors r) = Some b ->
           indices doc cursors cursor = Slice (Z.of_nat r) (Z.of_nat r + 1)
     | None => indices doc cursors cursor = unresolved
     end)
  /\ (forall passed stop,
        backward_line doc blk = passed ++ stop ->
        Forall (passed_over prevcol col) passed ->
        match stop with [] => True | t :: _ => tok_pos t <= prevcol end ->
        indices doc cursors cursor = unresolved).
Proof.
  intros Hs Hsel Hidx Hlt Hnext Hblk. cbv zeta.
  rewrite (indices_point_scan doc cursors cursor idx blk) by done.
  split.
  - intros passed closer name rest Hline Hpass Hpos Hcls.
    rewrite (scan_at_closer _ _ _ _ _ _ _ _ Hline Hpass Hpos Hcls).
    destruct (find_start name 1 _) as [[b opener] |]; [| done].
    intros r Hr Hrpos Hrblock. by apply resolved_index.
  - intros passed stop Hline Hpass Hstop.
    by rewrite (scan_no_closer _ _ _ _ _ _ Hline Hpass Hstop).
Qed.

Lemma cursors_slur_increasing : strictly_increasing cursors_slur.
Proof. unfold strictly_increasing. vm_compute. repeat constructor. Qed.

(** On [c( d) e] with cursors at [c], [(] and [d]: the caret on [)]
    resolves to the cursor at [(]. *)
Lemma indices_behind_cursor_witness :
  strictly_increasing cursors_slur
  /\ hasSelection (at_position 19) = false
  /\ cursor_block doc_slur (at_position 19) = Some 1%nat
  /\ indices doc_slur cursors_slur (at_position 19) = Slice 1 2.
Proof.
  split; [exact cursors_slur_increasing |]. split; [reflexivity |].
  split; [reflexivity |].
  assert (Hnext : forall i, (2 < i < length cursors_slur)%nat ->
            position (at_position 19) < position (cursor_at cursors_slur i))
    by (simpl; intros i Hi; lia).
  assert (Hlt : position (cursor_at cursors_slur 2) < position (at_position 19))
    by (simpl; lia).
  assert (Hidx : (2 < length cursors_slur)%nat) by (simpl; lia).
  destruct (indices_behind_cursor doc_slur cursors_slur (at_position 19) 2 1
              cursors_slur_increasing eq_refl Hidx Hlt Hnext eq_refl) as [T _].
  specialize (T [tok 6 PlainToken] (tok 4 (MatchEnd "slur")) "slur"%string
                [tok 3 PlainToken; tok 1 (MatchStart "slur"); tok 0 PlainToken]
                eq_refl).
  assert (Hpass : Forall (passed_over 3 4) [tok 6 PlainToken]).
  { constructor; [| constructor]. split; [simpl; lia | left; simpl; lia]. }
  specialize (T Hpass).
  assert (Hpos : 3 < tok_pos (tok 4 (MatchEnd "slur")) <= 4) by (simpl; lia).
  specialize (T Hpos eq_refl).
  apply (T 1%nat); [simpl; lia | reflexivity | reflexivity].
Defined.

(** C1 as stated fails in its second and third parts. In [doc_a] no line
    has a token, so no closing token is met: the caret at 5, behind the
    cursor at 0 on the same line, gets [Match([0, 1))] and not
    Indeterminate; the caret at 22, on the second line, gets Clear and not
    Indeterminate. In [d) e] the caret on [)] meets a closing slur whose
    opening one is not found: the result is [Match([0, 1))] and not
    Clear. *)
Lemma indices_behind_cursor_counterexample :
  (tokens doc_a 0 = [] /\ tokens doc_a 1 = []
   /\ hasSelection (at_position 5) = false
   /\ cursor_block doc_a (at_position 5) = Some 0%nat
   /\ cursor_block doc_a (at_position 22) = Some 1%nat
   /\ indices doc_a [at_position 0] (at_position 5) = Slice 0 1
   /\ indices doc_a [at_position 0] (at_position 22) = ReturnFalse)
  /\ (backward_line doc_unbalanced 0
      = [tok 3 PlainToken; tok 1 (MatchEnd "slur"); tok 0 PlainToken]
      /\ find_start "slur" 1 [(0%nat, tok 0 PlainToken)] = None
      /\ hasSelection (at_position 1) = false
      /\ indices doc_unbalanced [at_position 0] (at_position 1) = Slice 0 1).
Proof. vm_compute. repeat split; reflexivity. Qed.

(** ** The URL pattern *)

Module ReFacts.
Import Re.

Lemma isdigit_colon : isdigit colon = false.
Proof. reflexivity. Qed.

Lemma isdigit_newline : isdigit newline = false.
Proof. reflexivity. Qed.

Lemma span_digits_sound s d r :
  span_digits s = (d, r) ->
  s = d ++ r /\ Forall (fun c => isdigit c = true) d /\ no_digit_ahead r.
Proof.
  revert d r. induction s as [| c s IH]; intros d r H; cbn [span_digits] in H.
  - injection H as <- <-. repeat split; constructor.
  - destruct (isdigit c) eqn:Hc.
    + destruct (span_digits s) as [d' r'] eqn:Hs. injection H as <- <-.
      destruct (IH d' r' eq_refl) as (-> & Hd & Hr).
      repeat split; [by constructor | done].
    + injection H as <- <-. repeat split; [constructor | exact Hc].
Qed.

Lemma span_digits_complete d r :
  Forall (fun c => isdigit c = true) d -> no_digit_ahead r ->
  span_digits (d ++ r) = (d, r).
Proof.
  intros Hd Hr. induction Hd as [| c d Hc _ IH].
  - destruct r as [| c r]; [done |]. cbn [app span_digits].
    unfold no_digit_ahead in Hr. by rewrite Hr.
  - change ((c :: d) ++ r) with (c :: (d ++ r)). cbn [span_digits].
    by rewrite Hc, IH.
Qed.

Lemma digits_then_sound {A} s (k : list ascii -> list ascii -> option A) a :
  digits_then s k = Some a ->
  exists d r, s = d ++ r /\ all_digits d /\ no_digit_ahead r /\ k d r = Some a.
Proof.
  unfold digits_then. destruct (span_digits s) as [d r] eqn:Hs.
  apply span_digits_sound in Hs as (-> & Hd & Hr).
  destruct d as [| c d]; [done |]. intros H.
  exists (c :: d), r. repeat split; done.
Qed.

Lemma digits_then_complete {A} d r (k : list ascii -> list ascii -> option A) :
  all_digits d -> no_digit_ahead r -> digits_then (d ++ r) k = k d r.
Proof.
  intros [Hne Hd] Hr. unfold digits_then.
  rewrite span_digits_complete by done. by destruct d.
Qed.

Lemma expect_colon_sound {A} s (k : list ascii -> option A) a :
  expect_colon s k = Some a -> exists s', s = colon :: s' /\ k s' = Some a.
Proof.
  destruct s as [| c s]; simpl; [done |].
  case_bool_decide; [| done]. subst. eauto.
Qed.

Lemma expect_colon_colon {A} s (k : list ascii -> option A) :
  expect_colon (colon :: s) k = k s.
Proof. unfold expect_colon. by rewrite bool_decide_eq_true_2. Qed.

Lemma at_dollar_sound s : at_dollar s = true -> s = [] \/ s = [newline].
Proof.
  destruct s as [| c [| c' s]]; simpl; [auto | | done].
  case_bool_decide; [subst; auto | done].
Qed.

Lemma match_tail_sound s g2 g3 :
  match_tail s = Some (g2, g3) -> tail_shape s g2 g3.
Proof.
  unfold match_tail. intros H.
  apply expect_colon_sound in H as (s1 & -> & H).
  apply digits_then_sound in H as (d2 & s2 & -> & Hd2 & _ & H).
  apply expect_colon_sound in H as (s3 & -> & H).
  apply digits_then_sound in H as (d3 & s4 & -> & Hd3 & _ & H).
  apply expect_colon_sound in H as (s5 & -> & H).
  apply digits_then_sound in H as (t & s6 & -> & Ht & _ & H).
  destruct (at_dollar s6) eqn:Hend; [| done]. injection H as <- <-.
  apply at_dollar_sound in Hend. exists t, s6. done.
Qed.

Lemma match_tail_complete s g2 g3 :
  tail_shape s g2 g3 -> match_tail s = Some (g2, g3).
Proof.
  intros (t & nl & -> & H2 & H3 & Ht & Hnl). unfold match_tail.
  rewrite expect_colon_colon.
  rewrite digits_then_complete by (done || exact isdigit_colon).
  rewrite expect_colon_colon.
  rewrite digits_then_complete by (done || exact isdigit_colon).
  rewrite expect_colon_colon.
  rewrite digits_then_complete; [| done |].
  - by destruct Hnl as [-> | ->].
  - by destruct Hnl as [-> | ->].
Qed.

(** *** The lazy star stops at the first place where the tail matches *)

Lemma colons_app s1 s2 : colons (s1 ++ s2) = (colons s1 + colons s2)%nat.
Proof. unfold colons. by rewrite filter_app, length_app. Qed.

Lemma colons_cons_colon s : colons (colon :: s) = S (colons s).
Proof. unfold colons. by rewrite filter_cons_True. Qed.

Lemma colons_digits d :
  Forall (fun c => isdigit c = true) d -> colons d = 0%nat.
Proof.
  unfold colons. induction 1 as [| c d Hc _ IH]; [done |].
  rewrite filter_cons_False; [done |].
  intros ->. by rewrite isdigit_colon in Hc.
Qed.

Lemma tail_shape_colons s g2 g3 : tail_shape s g2 g3 -> colons s = 3%nat.
Proof.
  intros (t & nl & -> & [_ H2] & [_ H3] & [_ Ht] & Hnl).
  rewrite colons_cons_colon, colons_app, colons_cons_colon, colons_app,
    colons_cons_colon, colons_app.
  rewrite !colons_digits by done.
  by destruct Hnl as [-> | ->].
Qed.

Lemma tail_shape_starts s g2 g3 :
  tail_shape s g2 g3 -> exists s', s = colon :: s'.
Proof. intros (t & nl & -> & _). eauto. Qed.

Lemma match_lazy_complete path rest g2 g3 :
  newline ∉ path -> tail_shape rest g2 g3 ->
  match_lazy (path ++ rest) = Some (path, g2, g3).
Proof.
  intros Hnl Hrest. induction path as [| c path IH].
  - change ([] ++ rest) with rest.
    destruct rest as [| c rest]; cbn [match_lazy];
      by rewrite (match_tail_complete _ _ _ Hrest).
  - apply not_elem_of_cons in Hnl as [Hc Hnl].
    change ((c :: path) ++ rest) with (c :: (path ++ rest)).
    cbn [match_lazy].
    destruct (match_tail (c :: path ++ rest)) as [[g2' g3'] |] eqn:Htail.
    + (* the tail cannot match earlier: that would take a fourth colon *)
      exfalso. apply match_tail_sound in Htail.
      pose proof (tail_shape_colons _ _ _ Htail) as Hcount.
      apply tail_shape_starts in Htail as [s' Hs']. injection Hs' as -> _.
      rewrite colons_cons_colon, colons_app in Hcount.
      rewrite (tail_shape_colons _ _ _ Hrest) in Hcount. lia.
    + rewrite bool_decide_eq_false_2 by congruence.
      by rewrite (IH Hnl).
Qed.

Lemma match_lazy_sound s g1 g2 g3 :
  match_lazy s = Some (g1, g2, g3) ->
  exists rest, s = g1 ++ rest /\ (newline ∉ g1) /\ tail_shape rest g2 g3.
Proof.
  revert g1. induction s as [| c s IH]; intros g1 H.
  - cbn [match_lazy] in H.
    destruct (match_tail []) as [[? ?] |] eqn:Ht; [| done].
    injection H as <- <- <-. apply match_tail_sound in Ht.
    exists []. split; [done |]. split; [apply not_elem_of_nil | done].
  - cbn [match_lazy] in H.
    destruct (match_tail (c :: s)) as [[? ?] |] eqn:Ht.
    + injection H as <- <- <-. apply match_tail_sound in Ht.
      exists (c :: s). split; [done |]. split; [apply not_elem_of_nil | done].
    + case_bool_decide as Hc; [done |].
      destruct (match_lazy s) as [[[g1' g2'] g3'] |]; [| done].
      injection H as <- <- <-.
      destruct (IH g1' eq_refl) as (rest & -> & Hnl & Hrest).
      exists rest. split; [done |]. split; [| done].
      apply not_elem_of_cons. split; [congruence | done].
Qed.

Lemma strip_prefix_Some p s r : strip_prefix p s = Some r <-> s = p ++ r.
Proof.
  revert s. induction p as [| a p IH]; intros s; simpl.
  - split; congruence.
  - destruct s as [| b s]; [split; done |].
    case_bool_decide as Hab.
    + subst. rewrite IH. split; congruence.
    + split; [done | congruence].
Qed.

End ReFacts.

Lemma chars_str l : chars (str l) = l.
Proof. apply list_ascii_of_string_of_list_ascii. Qed.

Lemma str_chars s : str (chars s) = s.
Proof. apply string_of_list_ascii_of_string. Qed.

(** The pattern matches the URLs of the shape
    [textedit://path:line:column:digits], with an optional newline at the
    end, and no others; the groups are [path], [line] and [column]. *)
Lemma textedit_match_shape url path line column :
  textedit_match url
  = Some {| group1 := str path; group2 := line; group3 := column |}
  <-> textedit_url url path line column.
Proof.
  unfold textedit_match, textedit_url. split.
  - destruct (Re.strip_prefix scheme_prefix (chars url)) as [rest |] eqn:Hp; [| done].
    apply ReFacts.strip_prefix_Some in Hp.
    destruct (Re.match_lazy rest) as [[[g1 g2] g3] |] eqn:Hm; [| done].
    intros H. injection H as H1 <- <-.
    apply (f_equal chars) in H1. rewrite !chars_str in H1. subst g1.
    apply ReFacts.match_lazy_sound in Hm as (rest' & -> & Hnl & Hrest).
    exists rest'. done.
  - intros (rest & Hurl & Hnl & Hrest).
    rewrite (proj2 (ReFacts.strip_prefix_Some _ _ _) Hurl).
    by rewrite (ReFacts.match_lazy_complete _ _ _ _ Hnl Hrest).
Qed.

Lemma textedit_match_groups url m :
  textedit_match url = Some m ->
  textedit_url url (chars (group1 m)) (group2 m) (group3 m).
Proof.
  intros H. apply textedit_match_shape. rewrite str_chars. by destruct m.
Qed.

(** ** The link table *)

Section LinksFacts.

Variable fromPercentEncoding : string -> string.

Lemma inserted_for_app r1 r2 filename key :
  inserted_for (r1 ++ r2) filename key
  = inserted_for r1 filename key ++ inserted_for r2 filename key.
Proof. unfold inserted_for. by rewrite filter_app, fmap_app. Qed.

Lemma table_lookup_empty filename key : table_lookup ∅ filename key = [].
Proof. unfold table_lookup. by rewrite lookup_empty. Qed.

Lemma add_link_lookup num links link filename key :
  table_lookup (add_link fromPercentEncoding num links link) filename key
  = table_lookup links filename key
    ++ inserted_for (option_list (link_record fromPercentEncoding num link))
         filename key.
Proof.
  unfold table_lookup, add_link, link_record, inserted_for.
  destruct link as [url area | area]; [| by rewrite app_nil_r].
  destruct (textedit_match url) as [m |]; [| by rewrite app_nil_r].
  destruct (readurl fromPercentEncoding m) as [[f l] c]. simpl option_list.
  destruct (decide ((f, (l, c)) = (filename, key))) as [Heq | Hne].
  - injection Heq as -> <-. rewrite filter_cons_True by done.
    rewrite lookup_insert_eq. simpl. rewrite lookup_insert_eq. done.
  - rewrite filter_cons_False by (simpl; congruence).
    rewrite filter_nil, app_nil_r.
    destruct (decide (f = filename)) as [-> | Hf].
    + rewrite lookup_insert_eq. simpl.
      rewrite lookup_insert_ne by (intros <-; by apply Hne). done.
    + by rewrite lookup_insert_ne.
Qed.

Lemma scan_page_lookup num page links filename key :
  table_lookup (fold_left (add_link fromPercentEncoding num) page links) filename key
  = table_lookup links filename key
    ++ inserted_for (omap (link_record fromPercentEncoding num) page) filename key.
Proof.
  revert links. induction page as [| link page IH]; intros links; cbn [fold_left].
  - by rewrite app_nil_r.
  - rewrite IH, add_link_lookup, <- app_assoc, <- inserted_for_app.
    do 2 f_equal. cbn [omap list_omap].
    by destruct (link_record fromPercentEncoding num link).
Qed.

Lemma scan_pages_lookup num pages links filename key :
  table_lookup (scan_pages fromPercentEncoding links num pages) filename key
  = table_lookup links filename key
    ++ inserted_for (raw_records fromPercentEncoding num pages) filename key.
Proof.
  revert num links. induction pages as [| page pages IH]; intros num links;
    cbn [scan_pages raw_records].
  - by rewrite app_nil_r.
  - by rewrite IH, scan_page_lookup, <- app_assoc, <- inserted_for_app.
Qed.

(** Binding leaves the table as it is. *)
Lemma bind_links self filename doc : _links (bind self filename doc) = _links self.
Proof. unfold bind. by destruct (_links self !! filename). Qed.

Lemma bind_documents_links documents self filename :
  _links (bind_documents documents self filename) = _links self.
Proof.
  unfold bind_documents. revert self.
  induction documents as [| d ds IH]; intros self; cbn [fold_left]; [done |].
  rewrite IH. destruct (names_document filename d); [apply bind_links | done].
Qed.

Lemma fold_bind_documents_links documents names self :
  _links (fold_left (bind_documents documents) names self) = _links self.
Proof.
  revert self. induction names as [| n ns IH]; intros self; cbn [fold_left];
    [done |].
  by rewrite IH, bind_documents_links.
Qed.

Lemma Links_init_links document documents :
  _links (Links_init fromPercentEncoding document documents)
  = scan_pages fromPercentEncoding ∅ 0 document.
Proof. unfold Links_init. by rewrite fold_bind_documents_links. Qed.

(** C7: the lookup by file, line and column returns the destinations
    recorded for that key, each as often as it was met and in the order of
    the scan: pages in index order, links in the order of their page. *)
Theorem Links_lookup_encounter_order document documents filename key :
  Links_lookup (Links_init fromPercentEncoding document documents) filename key
  = inserted_for (raw_records fromPercentEncoding 0 document) filename key.
Proof.
  unfold Links_lookup.
  by rewrite Links_init_links, scan_pages_lookup, table_lookup_empty.
Qed.

Lemma elem_of_inserted_for records filename key (d : Destination) :
  d ∈ inserted_for records filename key <-> (filename, key, d) ∈ records.
Proof.
  unfold inserted_for. rewrite list_elem_of_fmap. split.
  - intros ([[f k] d'] & -> & Hin). apply list_elem_of_filter in Hin as [Heq Hin].
    simpl in Heq. by injection Heq as -> ->.
  - intros Hin. exists (filename, key, d). split; [done |].
    apply list_elem_of_filter. done.
Qed.

Lemma elem_of_raw_records num pages r :
  r ∈ raw_records fromPercentEncoding num pages
  <-> exists (n : nat) page link,
        pages !! n = Some page /\ link ∈ page
        /\ link_record fromPercentEncoding (num + Z.of_nat n) link = Some r.
Proof.
  revert num. induction pages as [| page pages IH]; intros num; cbn [raw_records].
  - split; [by intros ?%elem_of_nil | by intros (n & ? & ? & ? & _)].
  - rewrite elem_of_app, list_elem_of_omap, IH. split.
    + intros [(link & Hin & Hrec) | (n & page' & link & Hn & Hin & Hrec)].
      * exists 0%nat, page, link. rewrite Z.add_0_r. done.
      * exists (S n), page', link. split; [done |]. split; [done |].
        rewrite <- Hrec. f_equal. lia.
    + intros (n & page' & link & Hn & Hin & Hrec). destruct n as [| n].
      * left. injection Hn as <-. exists link. by rewrite Z.add_0_r in Hrec.
      * right. exists n, page', link. split; [done |]. split; [done |].
        rewrite <- Hrec. f_equal. lia.
Qed.

Lemma link_record_Some num link filename line column d :
  link_record fromPercentEncoding num link = Some (filename, (line, column), d)
  <-> exists url area path l c,
        link = LinkBrowse url area /\ d = (num, area)
        /\ textedit_url url path l c
        /\ filename = fromPercentEncoding (str path)
        /\ line = int l /\ column = int c.
Proof.
  unfold link_record, readurl, readfilename. split.
  - destruct link as [url area | area]; [| done].
    destruct (textedit_match url) as [m |] eqn:Hm; [| done].
    intros H. injection H as <- <- <- <-.
    apply textedit_match_groups in Hm.
    exists url, area, (chars (group1 m)), (group2 m), (group3 m).
    by rewrite str_chars.
  - intros (url & area & path & l & c & -> & -> & Hurl & -> & -> & ->).
    apply textedit_match_shape in Hurl. by rewrite Hurl.
Qed.

(** C3, amended: a destination is recorded under a file, line and column
    exactly for the browse links whose URL is
    [textedit://path:line:column:digits] -- the last group of digits is
    required, and one newline may end the string -- with [path] decoding to
    the file and [line], [column] the decimal numbers; every other link
    leaves no trace, and the scan is a total function. *)
Theorem Links_records_textedit_urls document documents filename line column num area :
  (num, area) ∈ Links_lookup (Links_init fromPercentEncoding document documents)
                  filename (line, column)
  <-> exists (n : nat) page url path l c,
        num = Z.of_nat n /\ document !! n = Some page
        /\ LinkBrowse url area ∈ page
        /\ textedit_url url path l c
        /\ filename = fromPercentEncoding (str path)
        /\ line = int l /\ column = int c.
Proof.
  unfold Links_lookup.
  rewrite Links_init_links, scan_pages_lookup, table_lookup_empty, app_nil_l.
  rewrite elem_of_inserted_for, elem_of_raw_records. split.
  - intros (n & page & link & Hn & Hin & Hrec).
    apply link_record_Some in Hrec
      as (url & area' & path & l & c & -> & Hd & Hurl & Hf & Hl & Hc).
    injection Hd as -> <-.
    exists n, page, url, path, l, c. repeat split; done || lia.
  - intros (n & page & url & path & l & c & -> & Hn & Hin & Hurl & Hf & Hl & Hc).
    exists n, page, (LinkBrowse url area). split; [done |]. split; [done |].
    apply link_record_Some. exists url, area, path, l, c.
    repeat split; done || (f_equal; lia).
Qed.

End LinksFacts.

Example Links_lookup_order :
  Links_lookup
    (Links_init id
       [[LinkBrowse "textedit:///a.ly:2:4:5" rect1; LinkOther rect0;
         LinkBrowse "textedit:///b.ly:2:4:5" rect0;
         LinkBrowse "textedit:///a.ly:2:4:9" rect0];
        [LinkBrowse "textedit:///a.ly:2:4:5" rect1]] [])
    "/a.ly" (2, 4)
  = [(0, rect1); (0, rect0); (1, rect1)].
Proof. vm_compute. reflexivity. Qed.

(** C3 as stated fails: [textedit:///a.ly:2:4] has the form the spec
    names, path, line and column ended by the end of the string, and is
    not recorded. *)
Lemma url_without_tail_not_recorded :
  spec_url_form "textedit:///a.ly:2:4" (chars "/a.ly") (chars "2") (chars "4")
  /\ textedit_match "textedit:///a.ly:2:4" = None
  /\ _links (Links_init id pdf_no_tail []) = ∅.
Proof.
  split; [| split; vm_compute; reflexivity].
  exists []. split; [reflexivity |].
  repeat split; try discriminate; try (repeat constructor); by left.
Qed.

(** ** The destination of a link *)

Section CursorFacts.

Variable fromPercentEncoding : string -> string.

Lemma BoundLinks_cursor_lookup bound line column :
  result_map Some (BoundLinks_cursor bound line column)
  = match _cursor_dict bound !! (line, column) with
    | Some c => Return (Some c)
    | None => Raise (KeyError (line, column))
    end.
Proof. unfold BoundLinks_cursor. by destruct (_cursor_dict bound !! _). Qed.

Lemma bind_docs self filename doc l :
  _links self !! filename = Some l ->
  _docs (bind self filename doc) = <[filename := BoundLinks_init doc l]> (_docs self).
Proof. intros H. unfold bind. by rewrite H. Qed.

(** What a loaded document changes for [filename]. *)
Lemma slotDocumentLoaded_docs self doc filename :
  _docs self !! filename = None ->
  _docs (slotDocumentLoaded self doc) !! filename
  = if bool_decide (doc_url doc = filename)
    then BoundLinks_init doc <$> _links self !! filename
    else None.
Proof.
  intros Hnone. unfold slotDocumentLoaded.
  case_bool_decide as Hin.
  - destruct Hin as [l Hl]. rewrite (bind_docs _ _ _ _ Hl).
    case_bool_decide as Hurl.
    + subst. by rewrite lookup_insert_eq, Hl.
    + by rewrite lookup_insert_ne.
  - case_bool_decide as Hurl; [| done].
    subst. rewrite Hnone.
    destruct (_links self !! doc_url doc) eqn:Hl; [| done].
    exfalso. apply Hin. eauto.
Qed.

(** C9, amended: [Links.cursor] returns [None] for a URL that does not
    match, and for one that matches when no binding is live and [load] is
    false. With a live binding its result is that of the exact lookup in
    the binding: the cursor bound for the key, and the lookup's [KeyError]
    when the key is not bound there. Without a live binding and with [load]
    the host is asked once to open the file; the lookup is then made once
    more, in the binding that the loaded document brought if its file name
    is the one of the link and the table knows it, and the result is [None]
    if there is still no binding. *)
Theorem Links_cursor_outcome host self url load :
  (textedit_match url = None ->
   Links_cursor fromPercentEncoding host self url load = (self, Return None))
  /\ (forall m, textedit_match url = Some m ->
      let filename := readfilename fromPercentEncoding m in
      let key := (int (group2 m), int (group3 m)) in
      let lookup (bound : BoundLinks) :=
        match _cursor_dict bound !! key with
        | Some c => Return (Some c)
        | None => Raise (KeyError key)
        end in
      (forall bound, _docs self !! filename = Some bound ->
         Links_cursor fromPercentEncoding host self url load = (self, lookup bound))
      /\ (_docs self !! filename = None -> load = false ->
          Links_cursor fromPercentEncoding host self url load = (self, Return None))
      /\ (_docs self !! filename = None -> load = true ->
          Links_cursor fromPercentEncoding host self url load
          = match host filename with
            | Some doc =>
                (slotDocumentLoaded self doc,
                 match _links self !! filename with
                 | Some l =>
                     if bool_decide (doc_url doc = filename)
                     then lookup (BoundLinks_init doc l)
                     else Return None
                 | None => Return None
                 end)
            | None => (self, Return None)
            end)).
Proof.
  split.
  - intros Hm. unfold Links_cursor. by rewrite Hm.
  - intros m Hm. cbv zeta. unfold Links_cursor. rewrite Hm.
    unfold readurl. repeat split.
    + intros bound Hb. rewrite Hb. by rewrite BoundLinks_cursor_lookup.
    + intros Hb ->. by rewrite Hb.
    + intros Hb ->. rewrite Hb. unfold openUrl.
      destruct (host (readfilename fromPercentEncoding m)) as [doc |];
        [| by rewrite Hb].
      rewrite (slotDocumentLoaded_docs _ _ _ Hb).
      case_bool_decide as Hurl.
      * destruct (_links self !! readfilename fromPercentEncoding m); simpl;
          [by rewrite BoundLinks_cursor_lookup | done].
      * by destruct (_links self !! readfilename fromPercentEncoding m).
Qed.

End CursorFacts.

(** The link to line 2, column 4 of [/a.ly], with and without a binding. *)
Lemma Links_cursor_outcome_witness :
  Links_cursor id host_a Links_a "textedit:///a.ly:2:4:5" false
  = (Links_a, Return (Some (at_position 24)))
  /\ snd (Links_cursor id host_a (Links_init id pdf_a []) "textedit:///a.ly:2:4:5" true)
     = Return (Some (at_position 24))
  /\ Links_cursor id host_a (Links_init id pdf_a []) "textedit:///a.ly:2:4:5" false
     = (Links_init id pdf_a [], Return None).
Proof.
  pose (m := {| group1 := "/a.ly"; group2 := chars "2"; group3 := chars "4" |}).
  assert (Hm : textedit_match "textedit:///a.ly:2:4:5" = Some m) by reflexivity.
  split; [| split].
  - destruct (Links_cursor_outcome id host_a Links_a "textedit:///a.ly:2:4:5" false) as [_ H].
    destruct (H m Hm) as [Hbound _].
    assert (Hb : _docs Links_a !! readfilename id m
                 = Some (BoundLinks_init doc_a links_a_table))
      by (vm_compute; reflexivity).
    rewrite (Hbound _ Hb). vm_compute. reflexivity.
  - destruct (Links_cursor_outcome id host_a (Links_init id pdf_a [])
                "textedit:///a.ly:2:4:5" true) as [_ H].
    destruct (H m Hm) as (_ & _ & Hload).
    rewrite (Hload eq_refl eq_refl). vm_compute. reflexivity.
  - destruct (Links_cursor_outcome id host_a (Links_init id pdf_a [])
                "textedit:///a.ly:2:4:5" false) as [_ H].
    destruct (H m Hm) as (_ & Hnone & _).
    apply (Hnone eq_refl eq_refl).
Defined.

(** C9 as stated fails: the rendered document still has a link to line 7
    of [/a.ly], the open document has two lines, so the binding is live
    and the key (7, 1) is not bound in it: [Links.cursor] raises. *)
Lemma Links_cursor_raises :
  is_Some (textedit_match "textedit:///a.ly:7:1:2")
  /\ is_Some (_docs Links_stale !! "/a.ly"%string)
  /\ Links_cursor id host_a Links_stale "textedit:///a.ly:7:1:2" false
     = (Links_stale, Raise (KeyError (7, 1)))
  /\ Links_cursor id host_a Links_stale "textedit:///a.ly:7:1:2" true
     = (Links_stale, Raise (KeyError (7, 1))).
Proof.
  split; [vm_compute; eauto |]. split; [vm_compute; eauto |].
  split; vm_compute; reflexivity.
Qed.

(** * Further properties *)

(** ** The binary search on any list of cursors *)

(** What the loop keeps without any order among the cursors: the cursor
    left of [lo], if there is one, is at or before [pos]; the cursor at
    [hi], if there is one, is beyond [pos]. *)
Lemma findlink_loop_any cursors pos lo hi :
  (lo <= hi <= length cursors)%nat ->
  (lo = 0%nat \/ position (cursor_at cursors (lo - 1)) <= pos) ->
  (hi = length cursors \/ pos < position (cursor_at cursors hi)) ->
  let r := findlink_loop cursors pos lo hi in
  (lo <= r <= hi)%nat
  /\ (r = 0%nat \/ position (cursor_at cursors (r - 1)) <= pos)
  /\ (r = length cursors \/ pos < position (cursor_at cursors r)).
Proof.
  funelim (findlink_loop cursors pos lo hi); intros Hb Hlo Hhi; cbn zeta.
  - (* lo >= hi *)
    assert (lo = hi) by lia. subst hi. repeat split; (lia || done).
  - (* pos < cursors[mid] *)
    match goal with Hlt : (lo < hi)%nat |- _ =>
      pose proof (half_bounds lo hi Hlt) as Hm end.
    match goal with IH : (_ <= _ <= _)%nat -> _ |- _ =>
      destruct IH as (Hr & Hl & Hu); [lia | done | by right |] end.
    repeat split; (lia || done).
  - (* cursors[mid] <= pos *)
    match goal with Hlt : (lo < hi)%nat |- _ =>
      pose proof (half_bounds lo hi Hlt) as Hm end.
    match goal with IH : (_ <= _ <= _)%nat -> _ |- _ =>
      destruct IH as (Hr & Hl & Hu); [lia | | done |] end.
    + right. replace ((lo + hi) / 2 + 1 - 1)%nat with ((lo + hi) / 2)%nat by lia.
      lia.
    + repeat split; (lia || done).
Qed.

Lemma findlink_any cursors pos :
  -1 <= findlink cursors pos < Z.of_nat (length cursors)
  /\ (0 <= findlink cursors pos ->
      position (cursor_at cursors (Z.to_nat (findlink cursors pos))) <= pos)
  /\ (findlink cursors pos + 1 < Z.of_nat (length cursors) ->
      pos < position (cursor_at cursors (Z.to_nat (findlink cursors pos + 1)))).
Proof.
  unfold findlink.
  destruct (findlink_loop_any cursors pos 0 (length cursors)) as (Hr & Hl & Hu);
    [lia | by left | by left |].
  set (r := findlink_loop cursors pos 0 (length cursors)) in *.
  repeat split; try lia.
  - intros H0. destruct Hl as [Hl | Hl]; [lia |].
    replace (Z.to_nat (Z.of_nat r - 1)) with (r - 1)%nat by lia. done.
  - intros Hlen. destruct Hu as [Hu | Hu]; [lia |].
    replace (Z.to_nat (Z.of_nat r - 1 + 1)) with r by lia. done.
Qed.

(** X1: on any list of cursors, in order or not, [findlink] returns [-1]
    or an index of the list; the cursor at that index is at or before
    [pos], and the cursor after it, if there is one, is beyond [pos]. *)
Theorem findlink_index_safe cursors pos :
  -1 <= findlink cursors pos < Z.of_nat (length cursors)
  /\ (0 <= findlink cursors pos ->
      position (cursor_at cursors (Z.to_nat (findlink cursors pos))) <= pos)
  /\ (findlink cursors pos + 1 < Z.of_nat (length cursors) ->
      pos < position (cursor_at cursors (Z.to_nat (findlink cursors pos + 1)))).
Proof. apply findlink_any. Qed.

Lemma findlink_index_safe_witness :
  findlink (at_position <$> [5; 3; 9]) 4 = 1
  /\ position (cursor_at (at_position <$> [5; 3; 9]) 1) <= 4
  /\ 4 < position (cursor_at (at_position <$> [5; 3; 9]) 2).
Proof.
  destruct (findlink_index_safe (at_position <$> [5; 3; 9]) 4) as (_ & Hl & Hu).
  assert (H : findlink (at_position <$> [5; 3; 9]) 4 = 1) by reflexivity.
  rewrite H in Hl, Hu. split; [exact H |]. split.
  - apply Hl. lia.
  - apply Hu. simpl. lia.
Defined.

(** ** What [indices] returns *)

Lemma indices_selection_range cursors cursor :
  match indices_selection cursors cursor with
  | Slice a b => 0 <= a < b /\ b <= Z.of_nat (length cursors)
  | ReturnFalse => True
  | ReturnNone => False
  end.
Proof.
  unfold indices_selection.
  destruct (findlink_any cursors (selectionEnd cursor - 1)) as (He & _ & _).
  destruct (findlink_any cursors (selectionStart cursor)) as (Hs & _ & _).
  destruct (0 <=? findlink cursors (selectionEnd cursor - 1)); [| done].
  match goal with |- context [if ?c then _ + 1 else _] => destruct c eqn:Hc end.
  - destruct (Z.leb_spec (findlink cursors (selectionStart cursor) + 1)
                (findlink cursors (selectionEnd cursor - 1))); [lia | done].
  - apply orb_false_iff in Hc as [Hc _]. apply Z.ltb_ge in Hc.
    destruct (Z.leb_spec (findlink cursors (selectionStart cursor))
                (findlink cursors (selectionEnd cursor - 1))); [lia | done].
Qed.

Lemma indices_point_range doc cursors cursor :
  match indices_point doc cursors cursor with
  | Slice a b => 0 <= a /\ b = a + 1 /\ b <= Z.of_nat (length cursors)
  | _ => True
  end.
Proof.
  unfold indices_point.
  destruct (findlink_any cursors (position cursor)) as (Hi & _ & _).
  destruct (Z.ltb_spec (findlink cursors (position cursor)) 0); [done |].
  destruct (_ <? position cursor); [| lia].
  destruct (scan doc _ _ _) as [[b token] |].
  - destruct (findlink_any cursors (block_position doc b + tok_pos token))
      as (Hj & _ & _).
    destruct (Z.ltb_spec (findlink cursors (block_position doc b + tok_pos token)) 0);
      [done |].
    simpl orb. destruct (negb _); [done | lia].
  - destruct (negb _); [done | lia].
Qed.

(** X2: whatever the cursors and the document are, a slice returned by
    [indices] is not empty and lies within the list of cursors (and so
    within the list of destinations of the same length); a point query gives
    a slice of one index; a query with a selection never returns [None]. *)
Theorem indices_slice_in_range doc cursors cursor :
  match indices doc cursors cursor with
  | Slice a b =>
      0 <= a < b /\ b <= Z.of_nat (length cursors)
      /\ (hasSelection cursor = false -> b = a + 1)
  | ReturnFalse => True
  | ReturnNone => hasSelection cursor = false
  end.
Proof.
  unfold indices. destruct (hasSelection cursor).
  - pose proof (indices_selection_range cursors cursor) as H.
    destruct (indices_selection cursors cursor); [| done | done].
    repeat split; (lia || done).
  - pose proof (indices_point_range doc cursors cursor) as H.
    destruct (indices_point doc cursors cursor); [| done | done].
    repeat split; lia.
Qed.

Lemma indices_slice_in_range_witness :
  indices doc_a (at_position <$> [5; 3; 9]) {| anchor := 2; position := 8 |} = Slice 0 2
  /\ 0 <= 0 < 2 /\ 2 <= Z.of_nat (length (at_position <$> [5; 3; 9])).
Proof.
  pose proof (indices_slice_in_range doc_a (at_position <$> [5; 3; 9])
                {| anchor := 2; position := 8 |}) as H.
  assert (E : indices doc_a (at_position <$> [5; 3; 9]) {| anchor := 2; position := 8 |}
              = Slice 0 2) by reflexivity.
  rewrite E in H. destruct H as (H1 & H2 & _). done.
Defined.

(** The selection case, by the positions: the slice holds the cursors
    inside the selection and no others. *)
Lemma indices_selection_covers cursors cursor :
  strictly_increasing cursors ->
  match indices_selection cursors cursor with
  | Slice a b =>
      forall i, (i < length cursors)%nat ->
        a <= Z.of_nat i < b
        <-> selectionStart cursor <= position (cursor_at cursors i) < selectionEnd cursor
  | ReturnFalse =>
      forall i, (i < length cursors)%nat ->
        ~ (selectionStart cursor <= position (cursor_at cursors i) < selectionEnd cursor)
  | ReturnNone => False
  end.
Proof.
  intros Hs. unfold indices_selection.
  set (s := selectionStart cursor). set (e := selectionEnd cursor).
  destruct (findlink_spec cursors (e - 1) Hs) as (Hre & Hle & Hue).
  destruct (findlink_spec cursors s Hs) as (Hrs & Hls & Hus).
  set (re := findlink cursors (e - 1)) in *.
  set (rs := findlink cursors s) in *.
  (* the end index splits the cursors at [e] *)
  assert (Hend : forall i, (i < length cursors)%nat ->
            Z.of_nat i <= re <-> position (cursor_at cursors i) < e).
  { intros i Hi. split; intros H.
    - specialize (Hle i H). lia.
    - destruct (Z.le_gt_cases (Z.of_nat i) re) as [| Hgt]; [done |].
      specialize (Hue i). lia. }
  destruct (Z.leb_spec 0 re) as [Hre0 | Hre0].
  - set (start := if (rs <? 0) || (position (cursor_at cursors (Z.to_nat rs)) <? s)
                  then rs + 1 else rs).
    (* the start index splits the cursors at [s] *)
    assert (Hstart : forall i, (i < length cursors)%nat ->
              start <= Z.of_nat i <-> s <= position (cursor_at cursors i)).
    { intros i Hi. unfold start.
      destruct (Z.ltb_spec rs 0) as [Hrs0 | Hrs0]; simpl orb.
      - specialize (Hus i). lia.
      - destruct (Z.ltb_spec (position (cursor_at cursors (Z.to_nat rs))) s) as [Hp | Hp].
        + split; intros H.
          * specialize (Hus i). lia.
          * destruct (Z.le_gt_cases (rs + 1) (Z.of_nat i)) as [| Hgt]; [done |].
            pose proof (strictly_increasing_le cursors i (Z.to_nat rs) Hs). lia.
        + specialize (Hls (Z.to_nat rs)). split; intros H.
          * pose proof (strictly_increasing_le cursors (Z.to_nat rs) i Hs). lia.
          * destruct (Z.le_gt_cases rs (Z.of_nat i)) as [| Hgt]; [done |].
            pose proof (strictly_increasing_nth cursors i (Z.to_nat rs) Hs). lia. }
    destruct (Z.leb_spec start re) as [Hse | Hse].
    + intros i Hi. specialize (Hend i Hi). specialize (Hstart i Hi). lia.
    + intros i Hi. specialize (Hend i Hi). specialize (Hstart i Hi). lia.
  - intros i Hi. specialize (Hend i Hi). lia.
Qed.

(** X3: with the cursors strictly increasing, a query with a selection
    returns the slice of exactly those cursors that lie inside the
    selection, start included and end excluded; it returns [False] if and
    only if no cursor lies inside it. *)
Theorem indices_selection_exact doc cursors cursor :
  strictly_increasing cursors ->
  hasSelection cursor = true ->
  match indices doc cursors cursor with
  | Slice a b =>
      forall i, (i < length cursors)%nat ->
        a <= Z.of_nat i < b
        <-> selectionStart cursor <= position (cursor_at cursors i) < selectionEnd cursor
  | ReturnFalse =>
      forall i, (i < length cursors)%nat ->
        ~ (selectionStart cursor <= position (cursor_at cursors i) < selectionEnd cursor)
  | ReturnNone => False
  end.
Proof.
  intros Hs Hsel. unfold indices. rewrite Hsel.
  by apply indices_selection_covers.
Qed.

Lemma indices_selection_exact_witness :
  strictly_increasing cursors_ex
  /\ hasSelection {| anchor := 28; position := 9 |} = true
  /\ indices doc_a cursors_ex {| anchor := 28; position := 9 |} = Slice 2 6
  /\ (2 <= Z.of_nat 5 < 6
      <-> 9 <= position (cursor_at cursors_ex 5) < 28).
Proof.
  split; [exact cursors_ex_increasing |]. split; [reflexivity |].
  pose proof (indices_selection_exact doc_a cursors_ex {| anchor := 28; position := 9 |}
                cursors_ex_increasing eq_refl) as H.
  assert (E : indices doc_a cursors_ex {| anchor := 28; position := 9 |} = Slice 2 6)
    by reflexivity.
  rewrite E in H. split; [exact E |].
  apply (H 5%nat). simpl. lia.
Defined.

(** ** The scans for the opening token *)

Lemma find_start_balanced name w :
  balanced name w ->
  forall nest s, 1 <= nest ->
    find_start name nest (w ++ s) = find_start name nest s.
Proof.
  induction 1 as [| [b t] w Hopen Hclose Hw IH
                  | [bc c] w1 [bo o] w2 Hc Hw1 IH1 Ho Hw2 IH2];
    intros nest s Hnest.
  - done.
  - simpl in *. destruct (tok_class t) as [n | n |].
    + rewrite bool_decide_eq_false_2 by congruence. by apply IH.
    + rewrite bool_decide_eq_false_2 by congruence. by apply IH.
    + by apply IH.
  - simpl in Hc, Ho.
    change ((((bc, c) :: w1 ++ (bo, o) :: w2) ++ s))
      with ((bc, c) :: ((w1 ++ (bo, o) :: w2) ++ s)).
    cbn [find_start]. rewrite Hc, bool_decide_eq_true_2 by done.
    rewrite <- app_assoc. rewrite IH1 by lia.
    change (((bo, o) :: w2) ++ s) with ((bo, o) :: (w2 ++ s)).
    cbn [find_start]. rewrite Ho, bool_decide_eq_true_2 by done.
    rewrite (proj2 (Z.eqb_neq _ _)) by lia.
    replace (nest + 1 - 1) with nest by lia. by apply IH2.
Qed.

Lemma find_start_opener name b o rest :
  tok_class o = MatchStart name ->
  find_start name 1 ((b, o) :: rest) = Some (b, o).
Proof. intros Ho. cbn [find_start]. by rewrite Ho, bool_decide_eq_true_2. Qed.

Lemma find_start_Some name nest stream b t :
  find_start name nest stream = Some (b, t) ->
  (b, t) ∈ stream /\ tok_class t = MatchStart name.
Proof.
  revert nest. induction stream as [| [b' t'] stream IH]; intros nest H; [done |].
  cbn [find_start] in H.
  assert (Hrec : forall n, find_start name n stream = Some (b, t) ->
            (b, t) ∈ (b', t') :: stream /\ tok_class t = MatchStart name).
  { intros n Hn. destruct (IH n Hn). split; [by right | done]. }
  destruct (tok_class t') as [n | n |] eqn:Hcls; [| | by eapply Hrec].
  - case_bool_decide as Hn; [| by eapply Hrec].
    destruct (nest - 1 =? 0); [| by eapply Hrec].
    injection H as <- <-. subst. split; [by left | done].
  - destruct (bool_decide (n = name)); by eapply Hrec.
Qed.

Lemma elem_of_backward_blocks doc b b' t :
  (b', t) ∈ backward_blocks doc b <-> (b' < b)%nat /\ t ∈ tokens doc b'.
Proof.
  induction b as [| b IH]; cbn [backward_blocks].
  - split; [by intros ?%elem_of_nil | lia].
  - rewrite elem_of_app, IH, list_elem_of_In, in_map_iff. split.
    + intros [(t0 & Heq & Hin) | [Hlt Hin]].
      * injection Heq as <- <-. unfold backward_line in Hin.
        apply in_rev, list_elem_of_In in Hin. split; [lia | done].
      * split; [lia | done].
    + intros [Hlt Hin]. destruct (decide (b' = b)) as [-> | Hne].
      * left. exists t. split; [done |].
        unfold backward_line. apply in_rev. rewrite rev_involutive.
        by apply list_elem_of_In.
      * right. split; [lia | done].
Qed.

(** The first scan, when it finds: it met a recognised closing token
    between the bounds and the second scan found on what came after. *)
Lemma find_end_Some prevcol col b line before r :
  find_end prevcol col b line before = Some r ->
  exists closer name line',
    closer ∈ line /\ (forall t, t ∈ line' -> t ∈ line)
    /\ tok_class closer = MatchEnd name /\ slur_like name = true
    /\ prevcol < tok_pos closer <= col
    /\ find_start name 1 (map (pair b) line' ++ before) = Some r.
Proof.
  induction line as [| t line IH]; intros H; [done |]. cbn [find_end] in H.
  assert (Hrec : find_end prevcol col b line before = Some r ->
            exists closer name line',
              closer ∈ t :: line /\ (forall t', t' ∈ line' -> t' ∈ t :: line)
              /\ tok_class closer = MatchEnd name /\ slur_like name = true
              /\ prevcol < tok_pos closer <= col
              /\ find_start name 1 (map (pair b) line' ++ before) = Some r).
  { intros Hr. destruct (IH Hr) as (closer & name & line' & Hin & Hsub & Hrest).
    exists closer, name, line'. split; [by right |].
    split; [intros t' Ht'; right; auto | done]. }
  destruct (Z.leb_spec (tok_pos t) prevcol); [done |].
  destruct (Z.leb_spec (tok_pos t) col); [| by apply Hrec].
  destruct (tok_class t) as [| name |] eqn:Hcls; [by apply Hrec | | by apply Hrec].
  destruct (slur_like name) eqn:Hslur; [| by apply Hrec].
  exists t, name, line. repeat split; try done; try lia.
  - by left.
  - intros t' Ht'. by right.
Qed.

(** X4: the second scan honours nesting. Whatever balanced stretch of
    tokens lies between the closing token and an opening token of the same
    name, the scan passes over it and finds that opening token, in its own
    block or in a block before. *)
Theorem find_start_matches_nested name w b o rest :
  balanced name w ->
  tok_class o = MatchStart name ->
  find_start name 1 (w ++ (b, o) :: rest) = Some (b, o).
Proof.
  intros Hw Ho. rewrite (find_start_balanced name w Hw) by lia.
  by apply find_start_opener.
Qed.

Lemma find_start_matches_nested_witness :
  find_start "slur" 1
    ([(1%nat, tok 6 PlainToken); (1%nat, tok 4 (MatchEnd "slur"));
      (1%nat, tok 3 PlainToken); (1%nat, tok 1 (MatchStart "slur"));
      (1%nat, tok 0 PlainToken); (0%nat, tok 3 PlainToken)]
     ++ (0%nat, tok 1 (MatchStart "slur")) :: [(0%nat, tok 0 PlainToken)])
  = Some (0%nat, tok 1 (MatchStart "slur")).
Proof.
  apply find_start_matches_nested; [| reflexivity].
  apply balanced_other; [discriminate | discriminate |].
  apply (balanced_pair "slur" (1%nat, tok 4 (MatchEnd "slur"))
           [(1%nat, tok 3 PlainToken)] (1%nat, tok 1 (MatchStart "slur"))
           [(1%nat, tok 0 PlainToken); (0%nat, tok 3 PlainToken)]);
    try reflexivity;
    repeat (apply balanced_other; [discriminate | discriminate |]);
    apply balanced_nil.
Defined.

(** X5: when the scan from the caret finds a token, the line of the caret
    has a closing token of a slur, phrasing slur or beam between the lower
    bound and the caret column, and the token found is an opening token of
    the same name, in the caret's block or in a block before it. Nothing
    else is ever resolved. *)
Theorem scan_finds_opening_token doc prevcol col blk b t :
  scan doc prevcol col (Some blk) = Some (b, t) ->
  exists closer name,
    closer ∈ tokens doc blk
    /\ tok_class closer = MatchEnd name
    /\ prevcol < tok_pos closer <= col
    /\ (name = "slur" \/ name = "phrasingslur" \/ name = "beam")%string
    /\ tok_class t = MatchStart name
    /\ t ∈ tokens doc b /\ (b <= blk)%nat.
Proof.
  unfold scan. intros H.
  apply find_end_Some in H
    as (closer & name & line' & Hin & Hsub & Hcls & Hslur & Hpos & Hfind).
  apply find_start_Some in Hfind as [Hmem Hopen].
  assert (Hline : forall x, x ∈ backward_line doc blk -> x ∈ tokens doc blk).
  { intros x Hx. unfold backward_line in Hx.
    apply list_elem_of_In, in_rev, list_elem_of_In in Hx. done. }
  exists closer, name. split; [auto |]. split; [done |]. split; [done |]. split.
  { unfold slur_like in Hslur.
    apply orb_true_iff in Hslur as [Hslur | Hslur];
      [apply orb_true_iff in Hslur as [Hslur | Hslur] |];
      apply bool_decide_eq_true_1 in Hslur; auto. }
  split; [done |].
  apply elem_of_app in Hmem as [Hmem | Hmem].
  - apply list_elem_of_In, in_map_iff in Hmem as (t0 & Heq & Ht0).
    injection Heq as <- <-. split; [| lia].
    apply Hline, Hsub. by apply list_elem_of_In.
  - apply elem_of_backward_blocks in Hmem as [Hlt Hmem]. split; [done | lia].
Qed.

Lemma scan_finds_opening_token_witness :
  scan doc_nested (-1) 7 (Some 1%nat) = Some (0%nat, tok 1 (MatchStart "slur"))
  /\ exists closer name,
       closer ∈ tokens doc_nested 1
       /\ tok_class closer = MatchEnd name
       /\ -1 < tok_pos closer <= 7
       /\ (name = "slur" \/ name = "phrasingslur" \/ name = "beam")%string
       /\ tok_class (tok 1 (MatchStart "slur")) = MatchStart name
       /\ tok 1 (MatchStart "slur") ∈ tokens doc_nested 0 /\ (0 <= 1)%nat.
Proof.
  assert (H : scan doc_nested (-1) 7 (Some 1%nat)
              = Some (0%nat, tok 1 (MatchStart "slur"))) by reflexivity.
  split; [exact H |].
  apply (scan_finds_opening_token doc_nested (-1) 7 1 0 _ H).
Defined.

(** ** The arrays and the dict of a binding *)

Lemma BoundLinks_init_document doc links :
  _document (BoundLinks_init doc links) = doc.
Proof.
  unfold BoundLinks_init.
  assert (H : forall items self,
             _document (fold_left (bind_item doc) items self) = _document self).
  { induction items as [| [[line column] dest] items IH]; intros self;
      cbn [fold_left]; [done |].
    rewrite IH. unfold bind_item.
    by destruct (findBlockByNumber doc (line - 1)). }
  by rewrite H.
Qed.

(** The items that got a cursor: those of the table whose line exists. *)
Lemma elem_of_kept doc links key dest :
  (key, dest) ∈ filter (item_exists doc) (sorted_items links)
  <-> links !! key = Some dest /\ line_exists doc key.1.
Proof.
  rewrite list_elem_of_filter, sorted_items_lookup. unfold item_exists. simpl.
  tauto.
Qed.

Lemma BoundLinks_init_lookup doc links i :
  _cursors (BoundLinks_init doc links) !! i
  = cursor_for doc <$> (fst <$> filter (item_exists doc) (sorted_items links) !! i)
  /\ _destinations (BoundLinks_init doc links) !! i
     = snd <$> filter (item_exists doc) (sorted_items links) !! i.
Proof.
  rewrite BoundLinks_init_cursors, BoundLinks_init_destinations.
  by rewrite !list_lookup_fmap.
Qed.

(** X6: the lists that [cursors()] and [destinations()] return go
    together index by index: the cursor at an index is the cursor made for
    a key of the table whose line exists, which is at the start of that
    line plus the column when that offset lies inside the document, and
    the destinations at the same index are the list the table has for that
    key; every such key has its index. *)
Theorem BoundLinks_init_parallel doc links :
  (forall i c d,
     BoundLinks_cursors (BoundLinks_init doc links) !! i = Some c ->
     BoundLinks_destinations (BoundLinks_init doc links) !! i = Some d ->
     exists key, links !! key = Some d /\ line_exists doc key.1
                 /\ c = cursor_for doc key
                 /\ (0 <= key_offset doc key < document_length doc ->
                     c = at_position (key_offset doc key)))
  /\ (forall key d,
        links !! key = Some d -> line_exists doc key.1 ->
        exists i,
          BoundLinks_cursors (BoundLinks_init doc links) !! i
          = Some (cursor_for doc key)
          /\ BoundLinks_destinations (BoundLinks_init doc links) !! i = Some d).
Proof.
  unfold BoundLinks_cursors, BoundLinks_destinations. split.
  - intros i c d Hc Hd.
    destruct (BoundLinks_init_lookup doc links i) as [Ec Ed].
    rewrite Ec in Hc. rewrite Ed in Hd.
    destruct (filter (item_exists doc) (sorted_items links) !! i)
      as [[key dest] |] eqn:Hi; [| done].
    simpl in Hc, Hd. injection Hc as <-. injection Hd as <-.
    apply list_elem_of_lookup_2, elem_of_kept in Hi as [Hl Hex].
    exists key. split; [done |]. split; [done |]. split; [done |].
    intros Hin. unfold cursor_for. by apply setPosition_in_range.
  - intros key d Hl Hex.
    assert (Hin : (key, d) ∈ filter (item_exists doc) (sorted_items links))
      by by apply elem_of_kept.
    apply list_elem_of_lookup_1 in Hin as [i Hi]. exists i.
    destruct (BoundLinks_init_lookup doc links i) as [Ec Ed].
    rewrite Ec, Ed. unfold Key in *. rewrite Hi. done.
Qed.

Lemma BoundLinks_init_parallel_witness :
  exists i,
    BoundLinks_cursors (BoundLinks_init doc_a links_a) !! i = Some (at_position 24)
    /\ BoundLinks_destinations (BoundLinks_init doc_a links_a) !! i
       = Some [(0, rect0)].
Proof.
  destruct (BoundLinks_init_parallel doc_a links_a) as [_ H].
  apply (H (2, 4) [(0, rect0)]); [reflexivity |].
  unfold line_exists. simpl. lia.
Defined.

(** X7: the dict and the array of cursors hold the same cursors, one for
    each key of the dict: a cursor is in the array exactly if some key of
    the dict has it, and the dict has as many keys as the array has
    cursors. *)
Theorem BoundLinks_init_dict_agrees doc links :
  (forall c, c ∈ _cursors (BoundLinks_init doc links)
             <-> exists key, _cursor_dict (BoundLinks_init doc links) !! key = Some c)
  /\ size (_cursor_dict (BoundLinks_init doc links))
     = length (_cursors (BoundLinks_init doc links)).
Proof.
  assert (Hkeys : forall key,
            key ∈ (filter (item_exists doc) (sorted_items links)).*1
            <-> is_Some (links !! key) /\ line_exists doc key.1).
  { intros key. rewrite list_elem_of_fmap. split.
    - intros ([k d] & -> & Hin). apply elem_of_kept in Hin as [Hl Hex]. eauto.
    - intros [[d Hl] Hex]. exists (key, d). split; [done |]. by apply elem_of_kept. }
  split.
  - intros c. rewrite BoundLinks_init_cursors, list_elem_of_fmap. split.
    + intros (key & -> & Hin). exists key. rewrite BoundLinks_init_dict.
      apply Hkeys in Hin. by rewrite bool_decide_eq_true_2.
    + intros (key & Hkey). rewrite BoundLinks_init_dict in Hkey.
      case_bool_decide as Hb; [| done]. injection Hkey as <-.
      exists key. split; [done |]. by apply Hkeys.
  - rewrite <- size_dom.
    assert (Hdom : dom (_cursor_dict (BoundLinks_init doc links))
                   = list_to_set (filter (item_exists doc) (sorted_items links)).*1).
    { apply set_eq. intros key.
      rewrite elem_of_dom, elem_of_list_to_set, Hkeys, BoundLinks_init_dict.
      case_bool_decide as Hb.
      - split; [done | eauto].
      - split; [by intros [? ?] | done]. }
    rewrite Hdom, size_list_to_set.
    + rewrite BoundLinks_init_cursors. by rewrite !length_fmap.
    + assert (Hsub : sublist (filter (item_exists doc) (sorted_items links)).*1
                       (sorted_items links).*1)
        by (apply fmap_sublist, sublist_filter).
      eapply sublist_NoDup; [apply sorted_items_NoDup | exact Hsub].
Qed.

(** *** From a link to its cursor and back to its destinations *)

Lemma indices_point_exact doc cursors cursor (idx : nat) :
  strictly_increasing cursors ->
  hasSelection cursor = false ->
  (idx < length cursors)%nat ->
  position (cursor_at cursors idx) = position cursor ->
  indices doc cursors cursor = Slice (Z.of_nat idx) (Z.of_nat idx + 1).
Proof.
  intros Hs Hsel Hidx Heq.
  rewrite (indices_no_selection _ _ _ Hsel). unfold indices_point.
  rewrite (findlink_unique cursors (position cursor) idx); [| done | done | lia |].
  - rewrite Nat2Z.id, Heq, Z.ltb_irrefl.
    by rewrite (proj2 (Z.ltb_ge _ _)) by lia.
  - intros i Hi. pose proof (strictly_increasing_nth cursors idx i Hs). lia.
Qed.

(** X8: with every column inside its line, the cursor that the exact
    lookup gives for a key of the table, taken as the caret of a point
    query, gives the slice of one index at which the array of
    destinations holds the table's list for that key. *)
Theorem cursor_then_indices doc links line column dest :
  columns_in_lines doc links ->
  links !! (line, column) = Some dest ->
  line_exists doc line ->
  exists (c : QTextCursor) (i : nat),
    BoundLinks_cursor (BoundLinks_init doc links) line column = Return c
    /\ BoundLinks_indices (BoundLinks_init doc links) c
       = Slice (Z.of_nat i) (Z.of_nat i + 1)
    /\ _destinations (BoundLinks_init doc links) !! i = Some dest.
Proof.
  intros Hcols Hl Hex.
  assert (Hin : ((line, column), dest) ∈ filter (item_exists doc) (sorted_items links))
    by by apply elem_of_kept.
  apply list_elem_of_lookup_1 in Hin as [i Hi].
  destruct (BoundLinks_init_lookup doc links i) as [Ec Ed].
  unfold Key in *. rewrite Hi in Ec, Ed. simpl in Ec, Ed.
  exists (cursor_for doc (line, column)), i. split; [| split; [| done]].
  - unfold BoundLinks_cursor. rewrite BoundLinks_init_dict.
    rewrite bool_decide_eq_true_2; [done |]. split; [eauto | done].
  - unfold BoundLinks_indices. rewrite BoundLinks_init_document.
    apply indices_point_exact.
    + unfold strictly_increasing. rewrite BoundLinks_init_cursors.
      apply StronglySorted_Sorted, kept_positions_sorted.
      * apply sorted_strict; [apply sorted_items_sorted | apply sorted_items_NoDup].
      * unfold columns_in_lines in Hcols.
        rewrite map_Forall_to_list, <- (sorted_items_perm links) in Hcols.
        eapply Forall_impl; [exact Hcols |]. intros [k d] H. exact H.
    + apply setPosition_no_selection.
    + by apply lookup_lt_Some in Ec.
    + unfold cursor_at. by rewrite (nth_lookup_Some _ _ _ _ Ec).
Qed.

Lemma cursor_then_indices_witness :
  columns_in_lines doc_a links_a
  /\ exists (c : QTextCursor) (i : nat),
       BoundLinks_cursor (BoundLinks_init doc_a links_a) 2 4 = Return c
       /\ BoundLinks_indices (BoundLinks_init doc_a links_a) c
          = Slice (Z.of_nat i) (Z.of_nat i + 1)
       /\ _destinations (BoundLinks_init doc_a links_a) !! i = Some [(0, rect0)].
Proof.
  assert (H : columns_in_lines doc_a links_a)
    by (apply (bool_decide_unpack (columns_in_lines doc_a links_a));
        vm_compute; exact I).
  split; [exact H |].
  apply (cursor_then_indices doc_a links_a 2 4 [(0, rect0)] H).
  - reflexivity.
  - unfold line_exists. simpl. lia.
Defined.

(** ** The bindings made by [Links] *)

Lemma last_named_cons d documents filename :
  last_named (d :: documents) filename
  = if names_document filename d
    then match last_named documents filename with
         | Some d' => Some d'
         | None => Some d
         end
    else last_named documents filename.
Proof.
  unfold last_named. destruct (names_document filename d) eqn:Hd.
  - rewrite filter_cons_True by done. apply last_cons.
  - rewrite filter_cons_False by (by rewrite Hd). done.
Qed.

Lemma bind_documents_docs documents self filename l :
  _links self !! filename = Some l ->
  _docs (bind_documents documents self filename)
  = match last_named documents filename with
    | Some d => <[filename := BoundLinks_init d l]> (_docs self)
    | None => _docs self
    end.
Proof.
  unfold bind_documents. revert self.
  induction documents as [| d ds IH]; intros self Hl; cbn [fold_left]; [done |].
  rewrite last_named_cons. destruct (names_document filename d).
  - rewrite IH by (by rewrite bind_links). rewrite (bind_docs _ _ _ _ Hl).
    destruct (last_named ds filename); [by rewrite insert_insert_eq | done].
  - by apply IH.
Qed.

Lemma fold_bind_documents_docs documents names self filename :
  NoDup names ->
  (forall n, n ∈ names -> is_Some (_links self !! n)) ->
  _docs (fold_left (bind_documents documents) names self) !! filename
  = if bool_decide (filename ∈ names)
    then match last_named documents filename with
         | Some d => BoundLinks_init d <$> _links self !! filename
         | None => _docs self !! filename
         end
    else _docs self !! filename.
Proof.
  revert self. induction names as [| n ns IH]; intros self Hnd Hin;
    cbn [fold_left].
  - rewrite bool_decide_eq_false_2; [done | apply not_elem_of_nil].
  - apply NoDup_cons in Hnd as [Hn Hnd].
    destruct (Hin n) as [l Hl]; [by left |].
    rewrite IH; [| done |]; cycle 1.
    { intros n' Hn'. rewrite bind_documents_links. apply Hin. by right. }
    rewrite bind_documents_links, (bind_documents_docs _ _ _ _ Hl).
    destruct (decide (filename = n)) as [-> | Hne].
    + rewrite (bool_decide_eq_false_2 (n ∈ ns)) by done.
      rewrite (bool_decide_eq_true_2 (n ∈ n :: ns)) by (by left).
      rewrite Hl. simpl.
      destruct (last_named documents n); [by rewrite lookup_insert_eq | done].
    + assert (Hdocs : match last_named documents n with
                      | Some d => <[n := BoundLinks_init d l]> (_docs self)
                      | None => _docs self
                      end !! filename = _docs self !! filename).
      { destruct (last_named documents n); [by rewrite lookup_insert_ne | done]. }
      rewrite Hdocs.
      apply (f_equal (fun b : bool => if b then _ else _)).
      apply bool_decide_ext. rewrite elem_of_cons.
      split; [by right | intros [Heq | Hns]; [done | done]].
Qed.

Section LinksBindings.

Variable fromPercentEncoding : string -> string.

Lemma Links_init_docs_lookup document documents filename :
  _docs (Links_init fromPercentEncoding document documents) !! filename
  = match _links (Links_init fromPercentEncoding document documents) !! filename,
          last_named documents filename with
    | Some l, Some d => Some (BoundLinks_init d l)
    | _, _ => None
    end.
Proof.
  rewrite Links_init_links. unfold Links_init.
  set (table := scan_pages fromPercentEncoding ∅ 0 document).
  rewrite fold_bind_documents_docs; cycle 1.
  { apply NoDup_fst_map_to_list. }
  { intros n Hn. simpl. apply list_elem_of_fmap in Hn as ([n' l] & -> & Hin).
    apply elem_of_map_to_list in Hin. eauto. }
  simpl. rewrite lookup_empty.
  destruct (table !! filename) as [l |] eqn:Hl.
  - rewrite bool_decide_eq_true_2.
    + by destruct (last_named documents filename).
    + apply list_elem_of_fmap. exists (filename, l). split; [done |].
      by apply elem_of_map_to_list.
  - by destruct (bool_decide _), (last_named documents filename).
Qed.

(** X9: after [Links.__init__] a file is bound exactly if the table has
    it and one of the open documents is named by it, through its scratch
    directory or its own file name; the binding is then the one made from
    the last such document and the table's entries for the file. *)
Theorem Links_init_bindings document documents filename :
  _docs (Links_init fromPercentEncoding document documents) !! filename
  = match _links (Links_init fromPercentEncoding document documents) !! filename,
          last_named documents filename with
    | Some l, Some d => Some (BoundLinks_init d l)
    | _, _ => None
    end.
Proof. apply Links_init_docs_lookup. Qed.

(** *** The bindings stay with the table *)

Lemma bind_consistent self filename doc :
  docs_consistent self -> docs_consistent (bind self filename doc).
Proof.
  intros Hc f b Hb. unfold bind in *.
  destruct (_links self !! filename) as [l |] eqn:Hl; [| by apply Hc].
  simpl in *. destruct (decide (f = filename)) as [-> | Hne].
  - rewrite lookup_insert_eq in Hb. injection Hb as <-.
    exists l. by rewrite BoundLinks_init_document.
  - rewrite lookup_insert_ne in Hb by done. by apply Hc.
Qed.

Lemma slotDocumentLoaded_consistent self doc :
  docs_consistent self -> docs_consistent (slotDocumentLoaded self doc).
Proof.
  intros Hc. unfold slotDocumentLoaded.
  case_bool_decide; [by apply bind_consistent | done].
Qed.

Lemma openUrl_consistent host self filename :
  docs_consistent self -> docs_consistent (openUrl host self filename).
Proof.
  intros Hc. unfold openUrl.
  destruct (host filename); [by apply slotDocumentLoaded_consistent | done].
Qed.

Lemma Links_cursor_state host self url load :
  (Links_cursor fromPercentEncoding host self url load).1 = self
  \/ exists filename,
       (Links_cursor fromPercentEncoding host self url load).1
       = openUrl host self filename.
Proof.
  unfold Links_cursor. destruct (textedit_match url) as [m |]; [| by left].
  destruct (readurl fromPercentEncoding m) as [[f line] col].
  destruct (_docs self !! f); [by left |].
  destruct load; [| by left]. right. exists f.
  by destruct (_docs (openUrl host self f) !! f).
Qed.

Lemma Links_init_consistent document documents :
  docs_consistent (Links_init fromPercentEncoding document documents).
Proof.
  intros f b Hb. rewrite Links_init_docs_lookup in Hb.
  destruct (_links _ !! f) as [l |]; [| done].
  destruct (last_named documents f) as [d |]; [| done].
  injection Hb as <-. exists l. by rewrite BoundLinks_init_document.
Qed.

(** X10: every binding of a [Links] object is for a file of its table
    and consists of the cursors made from the table's entries for that
    file in the binding's own document. [__init__] sets this up, and
    [bind] for a file of the table, [slotDocumentLoaded] and [cursor],
    with or without loading, keep it. *)
Theorem bindings_follow_table document documents :
  docs_consistent (Links_init fromPercentEncoding document documents)
  /\ (forall self filename doc,
        is_Some (_links self !! filename) ->
        docs_consistent self -> docs_consistent (bind self filename doc))
  /\ (forall self doc,
        docs_consistent self -> docs_consistent (slotDocumentLoaded self doc))
  /\ (forall host self url load,
        docs_consistent self ->
        docs_consistent (Links_cursor fromPercentEncoding host self url load).1).
Proof.
  split; [apply Links_init_consistent |].
  split; [intros self filename doc _; apply bind_consistent |].
  split; [apply slotDocumentLoaded_consistent |].
  intros host self url load Hc.
  destruct (Links_cursor_state host self url load) as [-> | [f ->]];
    [done | by apply openUrl_consistent].
Qed.

End LinksBindings.

Lemma bindings_follow_table_witness :
  docs_consistent Links_a
  /\ docs_consistent (slotDocumentLoaded Links_a doc_short)
  /\ (_cursors <$> _docs (slotDocumentLoaded Links_a doc_short) !! "/a.ly"%string)
     = Some [at_position 0].
Proof.
  destruct (bindings_follow_table id pdf_a [doc_a]) as (H0 & _ & Hslot & _).
  split; [exact H0 |]. split; [apply Hslot; exact H0 |].
  vm_compute. reflexivity.
Defined.

(** ** The shape of the link table *)

Lemma int_acc_nonneg s acc :
  Forall (fun c => isdigit c = true) s -> 0 <= acc ->
  0 <= fold_left (fun a c => 10 * a + digit_value c) s acc.
Proof.
  intros Hs. revert acc. induction Hs as [| c s Hc _ IH]; intros acc Hacc; [done |].
  cbn [fold_left]. apply IH.
  unfold isdigit in Hc. apply andb_true_iff in Hc as [Hlo _].
  apply N.leb_le in Hlo. unfold digit_value. lia.
Qed.

Lemma int_nonneg s : all_digits s -> 0 <= int s.
Proof. intros [_ Hs]. unfold int. by apply int_acc_nonneg. Qed.

Section TableShape.

Variable fromPercentEncoding : string -> string.

Lemma add_link_filled num links link :
  table_filled links -> table_filled (add_link fromPercentEncoding num links link).
Proof.
  intros Hf. unfold add_link.
  destruct link as [url area | area]; [| done].
  destruct (textedit_match url) as [m |]; [| done].
  destruct (readurl fromPercentEncoding m) as [[f line] col].
  intros filename l Hl. destruct (decide (filename = f)) as [-> | Hne].
  - rewrite lookup_insert_eq in Hl. injection Hl as <-. split.
    + apply insert_non_empty.
    + intros key dests Hk. destruct (decide (key = (line, col))) as [-> | Hk'].
      * rewrite lookup_insert_eq in Hk. injection Hk as <-.
        intros Happ. by apply app_eq_nil in Happ as [_ ?].
      * rewrite lookup_insert_ne in Hk by done.
        destruct (links !! f) as [l0 |] eqn:Hl0; simpl in Hk.
        -- by apply (proj2 (Hf f l0 Hl0) key).
        -- by rewrite lookup_empty in Hk.
  - rewrite lookup_insert_ne in Hl by done. by apply (Hf filename).
Qed.

Lemma scan_pages_filled links num pages :
  table_filled links -> table_filled (scan_pages fromPercentEncoding links num pages).
Proof.
  revert links num. induction pages as [| page pages IH]; intros links num Hf;
    cbn [scan_pages]; [done |].
  apply IH. clear IH. revert links Hf.
  induction page as [| link page IHp]; intros links Hf; cbn [fold_left]; [done |].
  by apply IHp, add_link_filled.
Qed.

Lemma table_lookup_Some (links : gmap string (gmap Key (list Destination)))
    filename l key dests :
  links !! filename = Some l -> l !! key = Some dests ->
  table_lookup links filename key = dests.
Proof. intros Hl Hk. unfold table_lookup. by rewrite Hl; simpl; rewrite Hk. Qed.

(** X11: in the table that [Links.__init__] builds no file is without
    keys and no key without destinations, and no line or column of a key
    is negative. *)
Theorem Links_init_table_shape document documents filename l :
  _links (Links_init fromPercentEncoding document documents) !! filename = Some l ->
  l <> ∅
  /\ forall line column dests,
       l !! (line, column) = Some dests ->
       dests <> [] /\ 0 <= line /\ 0 <= column.
Proof.
  rewrite Links_init_links. intros Hl.
  assert (Hf : table_filled (scan_pages fromPercentEncoding ∅ 0 document)).
  { apply scan_pages_filled. intros f l0 H0. by rewrite lookup_empty in H0. }
  destruct (Hf filename l Hl) as [Hne Hds]. split; [done |].
  intros line column dests Hk. pose proof (Hds _ _ Hk) as Hnil.
  split; [done |].
  destruct dests as [| d dests]; [done |].
  assert (Hin : d ∈ table_lookup (scan_pages fromPercentEncoding ∅ 0 document)
                      filename (line, column)).
  { rewrite (table_lookup_Some _ _ _ _ _ Hl Hk). by left. }
  rewrite scan_pages_lookup, table_lookup_empty, app_nil_l in Hin.
  apply elem_of_inserted_for, elem_of_raw_records in Hin
    as (n & page & link & _ & _ & Hrec).
  apply link_record_Some in Hrec
    as (url & area & path & gl & gc & _ & _ & Hurl & _ & -> & ->).
  destruct Hurl as (rest & _ & _ & (t & nl & _ & Hgl & Hgc & _)).
  split; by apply int_nonneg.
Qed.

End TableShape.

Lemma Links_init_table_shape_witness :
  (_links Links_stale !! "/a.ly"%string)
  = Some (list_to_map [((2, 4), [(0, rect0)]); ((7, 1), [(1, rect1)])])
  /\ (list_to_map [((2, 4), [(0, rect0)]); ((7, 1), [(1, rect1)])]
      : gmap Key (list Destination)) <> ∅.
Proof.
  assert (H : (_links Links_stale !! "/a.ly"%string)
              = Some (list_to_map [((2, 4), [(0, rect0)]); ((7, 1), [(1, rect1)])]))
    by (vm_compute; reflexivity).
  split; [exact H |].
  apply (Links_init_table_shape id pdf_stale [doc_a] "/a.ly" _ H).
Defined.

(** ** Following a link *)

Lemma table_lookup_elem (links : gmap string (gmap Key (list Destination)))
    filename key (d : Destination) :
  d ∈ table_lookup links filename key ->
  exists l dests, links !! filename = Some l /\ l !! key = Some dests.
Proof.
  unfold table_lookup. intros Hin.
  destruct (links !! filename) as [l |]; simpl in Hin.
  - destruct (l !! key) as [dests |] eqn:Hk; simpl in Hin; [eauto |].
    by apply elem_of_nil in Hin.
  - rewrite lookup_empty in Hin. by apply elem_of_nil in Hin.
Qed.

Lemma slotDocumentLoaded_links self doc :
  _links (slotDocumentLoaded self doc) = _links self.
Proof.
  unfold slotDocumentLoaded. case_bool_decide; [apply bind_links | done].
Qed.

Lemma slotDocumentLoaded_lookup self doc filename :
  _docs (slotDocumentLoaded self doc) !! filename
  = if bool_decide (filename = doc_url doc)
    then match _links self !! filename with
         | Some l => Some (BoundLinks_init doc l)
         | None => _docs self !! filename
         end
    else _docs self !! filename.
Proof.
  unfold slotDocumentLoaded. case_bool_decide as Hin.
  - destruct Hin as [l Hl]. rewrite (bind_docs _ _ _ _ Hl).
    case_bool_decide as Hf.
    + subst. by rewrite lookup_insert_eq, Hl.
    + by rewrite lookup_insert_ne.
  - case_bool_decide as Hf; [| done]. subst.
    destruct (_links self !! doc_url doc) eqn:Hl; [| done].
    exfalso. apply Hin. eauto.
Qed.

(** X12: a document that gets loaded is bound under its own file name
    if the table has that file, in place of whatever was bound there; no
    other binding changes, and the table does not change. *)
Theorem slotDocumentLoaded_rebinds self doc filename :
  _links (slotDocumentLoaded self doc) = _links self
  /\ _docs (slotDocumentLoaded self doc) !! filename
     = if bool_decide (filename = doc_url doc)
       then match _links self !! filename with
            | Some l => Some (BoundLinks_init doc l)
            | None => _docs self !! filename
            end
       else _docs self !! filename.
Proof.
  split; [apply slotDocumentLoaded_links | apply slotDocumentLoaded_lookup].
Qed.

Section FollowLink.

Variable fromPercentEncoding : string -> string.

Lemma Links_cursor_links host self url load :
  _links (Links_cursor fromPercentEncoding host self url load).1 = _links self.
Proof.
  destruct (Links_cursor_state fromPercentEncoding host self url load)
    as [-> | [f ->]]; [done |].
  unfold openUrl. destruct (host f); [apply slotDocumentLoaded_links | done].
Qed.

(** X13: [Links.cursor] never changes the table. When the URL does not
    match, when [load] is false, or when the file of the URL is bound, it
    leaves the bindings as they are too and does not turn to the host: the
    outcome is the same with any host. *)
Theorem Links_cursor_frame host self url load :
  _links (Links_cursor fromPercentEncoding host self url load).1 = _links self
  /\ ((textedit_match url = None
       \/ load = false
       \/ exists m, textedit_match url = Some m
                    /\ is_Some (_docs self !! readfilename fromPercentEncoding m)) ->
      (Links_cursor fromPercentEncoding host self url load).1 = self
      /\ forall host',
           Links_cursor fromPercentEncoding host' self url load
           = Links_cursor fromPercentEncoding host self url load).
Proof.
  split; [apply Links_cursor_links |].
  unfold Links_cursor. intros [Hm | [-> | (m & Hm & [b Hb])]].
  - by rewrite Hm.
  - destruct (textedit_match url) as [m |]; [| done].
    unfold readurl. by destruct (_docs self !! _).
  - rewrite Hm. unfold readurl. by rewrite Hb.
Qed.

(** X14: following a link of the rendered document from which the table
    was built, when one of the open documents is named by the file of the
    link. If the link's line exists in the last such document the result is
    the cursor made for the link there: at the start of the line plus the
    column if that offset lies inside the document, and at 0 if it does
    not. If the line does not exist the result is [KeyError]. The [Links]
    object stays as it is. *)
Theorem Links_cursor_of_scanned_link document documents host url area page
    (n : nat) m d load :
  document !! n = Some page ->
  LinkBrowse url area ∈ page ->
  textedit_match url = Some m ->
  last_named documents (readfilename fromPercentEncoding m) = Some d ->
  Links_cursor fromPercentEncoding host
    (Links_init fromPercentEncoding document documents) url load
  = (Links_init fromPercentEncoding document documents,
     if bool_decide (line_exists d (int (group2 m)))
     then Return
            (Some
               (if bool_decide
                     (0 <= key_offset d (int (group2 m), int (group3 m))
                      < document_length d)
                then at_position (key_offset d (int (group2 m), int (group3 m)))
                else at_position 0))
     else Raise (KeyError (int (group2 m), int (group3 m)))).
Proof.
  intros Hn Hin Hm Hd.
  change (if bool_decide
               (0 <= key_offset d (int (group2 m), int (group3 m))
                < document_length d)
          then at_position (key_offset d (int (group2 m), int (group3 m)))
          else at_position 0)
    with (cursor_for d (int (group2 m), int (group3 m))).
  set (f := readfilename fromPercentEncoding m) in *.
  set (key := (int (group2 m), int (group3 m))).
  (* the link was recorded *)
  assert (Hrec : (Z.of_nat n, area)
                 ∈ table_lookup
                     (_links (Links_init fromPercentEncoding document documents)) f key).
  { rewrite Links_init_links, scan_pages_lookup, table_lookup_empty, app_nil_l.
    apply elem_of_inserted_for, elem_of_raw_records.
    exists n, page, (LinkBrowse url area). split; [done |]. split; [done |].
    unfold link_record. by rewrite Hm. }
  apply table_lookup_elem in Hrec as (l & dests & Hl & Hk).
  (* the file is bound *)
  assert (Hb : _docs (Links_init fromPercentEncoding document documents) !! f
               = Some (BoundLinks_init d l)).
  { rewrite Links_init_docs_lookup, Hl. fold f. by rewrite Hd. }
  unfold Links_cursor. rewrite Hm. unfold readurl. fold f. rewrite Hb.
  f_equal. unfold BoundLinks_cursor. rewrite BoundLinks_init_dict. fold key.
  destruct (decide (line_exists d (int (group2 m)))) as [Hex | Hex].
  - rewrite !bool_decide_eq_true_2; [done | done |]. split; [eauto | done].
  - rewrite !bool_decide_eq_false_2; [done | done |]. by intros [_ ?].
Qed.

(** *** The cache of [links] *)

(** X15: [links] builds the [Links] object of a rendered document once:
    when called again for the same document it returns the object of the
    first call and leaves the cache as it is, whatever documents are open
    by then; the entries of other rendered documents are never touched. *)
Theorem links_builds_once cache handle document documents document' documents' :
  links fromPercentEncoding
    (links fromPercentEncoding cache handle document documents).1
    handle document' documents'
  = links fromPercentEncoding cache handle document documents
  /\ (forall h, h <> handle ->
        (links fromPercentEncoding cache handle document documents).1 !! h
        = cache !! h)
  /\ (links fromPercentEncoding cache handle document documents).1 !! handle
     = Some (links fromPercentEncoding cache handle document documents).2.
Proof.
  unfold links. destruct (cache !! handle) as [l |] eqn:Hc; simpl.
  - rewrite Hc. done.
  - rewrite lookup_insert_eq. split; [done |]. split; [| done].
    intros h Hh. by rewrite lookup_insert_ne.
Qed.

End FollowLink.

Lemma Links_cursor_frame_witness :
  (Links_cursor id host_a Links_stale "textedit:///a.ly:7:1:2" true).1 = Links_stale
  /\ Links_cursor id (fun _ => None) Links_stale "textedit:///a.ly:7:1:2" true
     = Links_cursor id host_a Links_stale "textedit:///a.ly:7:1:2" true.
Proof.
  destruct (Links_cursor_frame id host_a Links_stale "textedit:///a.ly:7:1:2" true)
    as [_ H].
  destruct H as [H1 H2].
  - right. right.
    exists {| group1 := "/a.ly"; group2 := chars "7"; group3 := chars "1" |}.
    split; [reflexivity | vm_compute; eauto].
  - split; [exact H1 | apply H2].
Defined.

Lemma Links_cursor_of_scanned_link_witness :
  Links_cursor id host_a (Links_init id pdf_stale [doc_a]) "textedit:///a.ly:2:4:5" false
  = (Links_init id pdf_stale [doc_a], Return (Some (at_position 24)))
  /\ Links_cursor id host_a (Links_init id pdf_stale [doc_a]) "textedit:///a.ly:7:1:2" false
     = (Links_init id pdf_stale [doc_a], Raise (KeyError (7, 1))).
Proof.
  split.
  - apply (Links_cursor_of_scanned_link id pdf_stale [doc_a] host_a
             "textedit:///a.ly:2:4:5" rect0
             [LinkBrowse "textedit:///a.ly:2:4:5" rect0] 0
             {| group1 := "/a.ly"; group2 := chars "2"; group3 := chars "4" |}
             doc_a false); try reflexivity.
    by left.
  - apply (Links_cursor_of_scanned_link id pdf_stale [doc_a] host_a
             "textedit:///a.ly:7:1:2" rect1
             [LinkBrowse "textedit:///a.ly:7:1:2" rect1] 1
             {| group1 := "/a.ly"; group2 := chars "7"; group3 := chars "1" |}
             doc_a false); try reflexivity.
    by left.
Defined.

(** ** The binding of a document *)

(** X16: [Links.boundLinks] returns a binding of the [Links] object whose
    document is the given one, and [None] only if no binding has that
    document; right after a file of the table is bound to a document it
    finds a binding of that document. *)
Theorem boundLinks_finds self doc :
  match boundLinks self doc with
  | Some b => _document b = doc /\ exists filename, _docs self !! filename = Some b
  | None => forall filename b, _docs self !! filename = Some b -> _document b <> doc
  end
  /\ forall filename doc', is_Some (_links self !! filename) ->
       is_Some (boundLinks (bind self filename doc') doc').
Proof.
  assert (Hspec : forall s d,
    match boundLinks s d with
    | Some b => _document b = d /\ exists filename, _docs s !! filename = Some b
    | None => forall filename b, _docs s !! filename = Some b -> _document b <> d
    end).
  { intros s d. unfold boundLinks.
    destruct (list_find _ _) as [[i b] |] eqn:Hfind; simpl.
    - apply list_find_Some in Hfind as (Hi & Hdoc & _). split; [done |].
      apply list_elem_of_lookup_2, list_elem_of_fmap in Hi as ([f b'] & -> & Hin).
      apply elem_of_map_to_list in Hin. eauto.
    - apply list_find_None in Hfind. rewrite Forall_forall in Hfind.
      intros f b Hb. apply Hfind. apply list_elem_of_fmap.
      exists (f, b). split; [done |]. by apply elem_of_map_to_list. }
  split; [apply Hspec |].
  intros filename doc' [l Hl]. specialize (Hspec (bind self filename doc') doc').
  destruct (boundLinks (bind self filename doc') doc'); [eauto |].
  exfalso. apply (Hspec filename (BoundLinks_init doc' l)).
  - rewrite (bind_docs _ _ _ _ Hl). apply lookup_insert_eq.
  - apply BoundLinks_init_document.
Qed.

Lemma boundLinks_finds_witness :
  is_Some (_links Links_a !! "/a.ly"%string)
  /\ is_Some (boundLinks (bind Links_a "/a.ly" doc_short) doc_short)
  /\ boundLinks Links_a doc_short = None.
Proof.
  assert (H : is_Some (_links Links_a !! "/a.ly"%string)) by (vm_compute; eauto).
  split; [exact H |]. split.
  - destruct (boundLinks_finds Links_a doc_short) as [_ Hbind].
    apply (Hbind "/a.ly"%string doc_short H).
  - vm_compute. reflexivity.
Defined.

(** ** Writing a URL and reading it back *)

Lemma digit_char_isdigit d : (d < 10)%nat -> isdigit (digit_char d) = true.
Proof.
  intros Hd. do 10 (destruct d as [| d]; [reflexivity |]). lia.
Qed.

Lemma digit_char_value d : (d < 10)%nat -> digit_value (digit_char d) = Z.of_nat d.
Proof.
  intros Hd. do 10 (destruct d as [| d]; [reflexivity |]). lia.
Qed.

Lemma decimal_digits n : all_digits (decimal n).
Proof.
  funelim (decimal n).
  - split; [done |]. repeat constructor. by apply digit_char_isdigit.
  - match goal with IH : all_digits _ |- _ => destruct IH as [_ IH'] end.
    split; [by intros [? ?]%app_eq_nil |].
    apply Forall_app. split; [done |]. repeat constructor.
    apply digit_char_isdigit, Nat.mod_upper_bound. lia.
Qed.

Lemma int_snoc s c : int (s ++ [c]) = 10 * int s + digit_value c.
Proof. unfold int. by rewrite fold_left_app. Qed.

Lemma int_decimal n : int (decimal n) = Z.of_nat n.
Proof.
  funelim (decimal n).
  - unfold int. simpl fold_left. rewrite digit_char_value by done. lia.
  - change (fst (Nat.divmod n 9 0 9)) with (n / 10)%nat in *.
    match goal with IH : int _ = _ |- _ => rewrite int_snoc, IH end.
    rewrite digit_char_value by (apply Nat.mod_upper_bound; lia).
    rewrite (Nat.div_mod_eq n 10) at 3. lia.
Qed.

(** X17: a URL written as [textedit://], the path, and line, character
    and column as decimal numerals between colons, is read back by
    [textedit_match] and [readurl] as the decoded path, the line and the
    character, whatever the numbers are and whatever the path holds apart
    from a newline, colons and digits included. *)
Theorem readurl_format_url decode path line char column :
  newline ∉ path ->
  readurl decode <$> textedit_match (format_url path line char column)
  = Some (decode (str path), Z.of_nat line, Z.of_nat char).
Proof.
  intros Hnl.
  assert (Hm : textedit_match (format_url path line char column)
               = Some {| group1 := str path; group2 := decimal line;
                         group3 := decimal char |}).
  { apply textedit_match_shape.
    exists (colon :: decimal line ++ colon :: decimal char ++ colon :: decimal column).
    split; [apply chars_str |]. split; [done |].
    exists (decimal column), []. rewrite app_nil_r.
    repeat split; try apply decimal_digits. by left. }
  rewrite Hm. simpl. unfold readurl, readfilename. simpl.
  by rewrite !int_decimal.
Qed.

Lemma readurl_format_url_witness :
  format_url (chars "C:/scores/trio:2.ly") 120 7 8
  = "textedit://C:/scores/trio:2.ly:120:7:8"%string
  /\ readurl id <$> textedit_match "textedit://C:/scores/trio:2.ly:120:7:8"
     = Some ("C:/scores/trio:2.ly"%string, 120, 7).
Proof.
  assert (E : format_url (chars "C:/scores/trio:2.ly") 120 7 8
              = "textedit://C:/scores/trio:2.ly:120:7:8"%string)
    by (vm_compute; reflexivity).
  split; [exact E |]. rewrite <- E.
  apply (readurl_format_url id (chars "C:/scores/trio:2.ly") 120 7 8).
  vm_compute. intros H. repeat (apply elem_of_cons in H as [H | H]; [discriminate |]).
  by apply elem_of_nil in H.
Defined.

(** ** The caret on a closing token *)

Lemma indices_point_resolved doc cursors cursor idx b token r :
  strictly_increasing cursors ->
  hasSelection cursor = false ->
  (idx < length cursors)%nat ->
  position (cursor_at cursors idx) < position cursor ->
  (forall i, (idx < i < length cursors)%nat ->
     position cursor < position (cursor_at cursors i)) ->
  scan doc
    (if bool_decide (cursor_block doc (cursor_at cursors idx) = cursor_block doc cursor)
     then position (cursor_at cursors idx)
          - position_of_block doc (cursor_block doc (cursor_at cursors idx))
     else -1)
    (position cursor - position_of_block doc (cursor_block doc cursor))
    (cursor_block doc cursor) = Some (b, token) ->
  (r < length cursors)%nat ->
  position (cursor_at cursors r) = block_position doc b + tok_pos token ->
  cursor_block doc (cursor_at cursors r) = Some b ->
  indices doc cursors cursor = Slice (Z.of_nat r) (Z.of_nat r + 1).
Proof.
  intros Hs Hsel Hidx Hlt Hnext Hscan Hr Hpos Hblock.
  rewrite (indices_no_selection _ _ _ Hsel). unfold indices_point.
  rewrite (findlink_unique cursors (position cursor) idx) by (done || lia).
  rewrite Nat2Z.id.
  rewrite (proj2 (Z.ltb_ge _ _)) by lia.
  rewrite (proj2 (Z.ltb_lt _ _) Hlt).
  rewrite Hscan.
  rewrite (findlink_unique cursors (block_position doc b + tok_pos token) r);
    [| done | done | lia |].
  - rewrite Nat2Z.id, Hblock.
    rewrite (proj2 (Z.ltb_ge _ _)) by lia.
    by rewrite bool_decide_eq_true_2.
  - intros i Hi. pose proof (strictly_increasing_nth cursors r i Hs). lia.
Qed.

Lemma scan_nested doc prevcol col blk skipped closer line' name w b o rest :
  backward_line doc blk = skipped ++ closer :: line' ->
  Forall (fun t => col < tok_pos t) skipped ->
  prevcol < tok_pos closer <= col ->
  tok_class closer = MatchEnd name ->
  slur_like name = true ->
  map (pair blk) line' ++ backward_blocks doc blk = w ++ (b, o) :: rest ->
  balanced name w ->
  tok_class o = MatchStart name ->
  scan doc prevcol col (Some blk) = Some (b, o).
Proof.
  intros Hline Hskip Hpos Hcls Hslur Hstream Hw Ho.
  unfold scan. rewrite Hline, find_end_skip by (done || lia).
  cbn [find_end].
  rewrite (proj2 (Z.leb_gt _ _)) by lia.
  rewrite (proj2 (Z.leb_le _ _)) by lia.
  rewrite Hcls, Hslur, Hstream.
  rewrite (find_start_balanced name w Hw) by lia.
  by apply find_start_opener.
Qed.

(** X18: with the cursors strictly increasing and the caret of a point
    query behind its nearest cursor, on or behind a closing slur, phrasing
    slur or beam that is the first token at or before the caret column:
    if the tokens between it and an opening token of the same name are
    balanced, and a cursor stands at that opening token, the result is the
    slice of that cursor's index, also when the opening token is on an
    earlier line and other pairs of the same name lie in between. *)
Theorem indices_resolves_closing_token doc cursors cursor idx blk
    skipped closer line' name w b o rest r :
  strictly_increasing cursors ->
  hasSelection cursor = false ->
  (idx < length cursors)%nat ->
  position (cursor_at cursors idx) < position cursor ->
  (forall i, (idx < i < length cursors)%nat ->
     position cursor < position (cursor_at cursors i)) ->
  cursor_block doc cursor = Some blk ->
  backward_line doc blk = skipped ++ closer :: line' ->
  Forall (fun t => position cursor - block_position doc blk < tok_pos t) skipped ->
  tok_pos closer <= position cursor - block_position doc blk ->
  (cursor_block doc (cursor_at cursors idx) = Some blk ->
   position (cursor_at cursors idx) - block_position doc blk < tok_pos closer) ->
  0 <= tok_pos closer ->
  tok_class closer = MatchEnd name ->
  slur_like name = true ->
  map (pair blk) line' ++ backward_blocks doc blk = w ++ (b, o) :: rest ->
  balanced name w ->
  tok_class o = MatchStart name ->
  (r < length cursors)%nat ->
  position (cursor_at cursors r) = block_position doc b + tok_pos o ->
  cursor_block doc (cursor_at cursors r) = Some b ->
  indices doc cursors cursor = Slice (Z.of_nat r) (Z.of_nat r + 1).
Proof.
  intros Hs Hsel Hidx Hlt Hnext Hblk Hline Hskip Hcol Hprev Hnonneg Hcls Hslur
    Hstream Hw Ho Hr Hpos Hblock.
  apply (indices_point_resolved doc cursors cursor idx b o r); try done.
  rewrite Hblk. simpl position_of_block.
  eapply scan_nested; try done.
  case_bool_decide as Hsame.
  - rewrite Hsame. simpl. split; [by apply Hprev | done].
  - lia.
Qed.

Lemma cursors_nested_increasing : strictly_increasing cursors_nested.
Proof. unfold strictly_increasing. vm_compute. repeat constructor. Qed.

Lemma indices_resolves_closing_token_witness :
  strictly_increasing cursors_nested
  /\ hasSelection (at_position 12) = false
  /\ indices doc_nested cursors_nested (at_position 12) = Slice 1 2.
Proof.
  split; [exact cursors_nested_increasing |]. split; [reflexivity |].
  apply (indices_resolves_closing_token doc_nested cursors_nested (at_position 12)
           6 1 [] (tok 7 (MatchEnd "slur"))
           [tok 6 PlainToken; tok 4 (MatchEnd "slur"); tok 3 PlainToken;
            tok 1 (MatchStart "slur"); tok 0 PlainToken]
           "slur"
           [(1%nat, tok 6 PlainToken); (1%nat, tok 4 (MatchEnd "slur"));
            (1%nat, tok 3 PlainToken); (1%nat, tok 1 (MatchStart "slur"));
            (1%nat, tok 0 PlainToken); (0%nat, tok 3 PlainToken)]
           0%nat (tok 1 (MatchStart "slur")) [(0%nat, tok 0 PlainToken)] 1%nat).
  - exact cursors_nested_increasing.
  - reflexivity.
  - simpl. lia.
  - simpl. lia.
  - simpl. intros i Hi. lia.
  - reflexivity.
  - reflexivity.
  - constructor.
  - apply Z.leb_le. reflexivity.
  - intros _. apply Z.ltb_lt. reflexivity.
  - simpl. lia.
  - reflexivity.
  - reflexivity.
  - reflexivity.
  - apply balanced_other; [discriminate | discriminate |].
    apply (balanced_pair "slur" (1%nat, tok 4 (MatchEnd "slur"))
             [(1%nat, tok 3 PlainToken)] (1%nat, tok 1 (MatchStart "slur"))
             [(1%nat, tok 0 PlainToken); (0%nat, tok 3 PlainToken)]);
      try reflexivity;
      repeat (apply balanced_other; [discriminate | discriminate |]);
      apply balanced_nil.
  - reflexivity.
  - simpl. lia.
  - reflexivity.
  - reflexivity.
Defined.
